(** * A shallow embedding of [c-cpp/17_skiplist/skiplist_tr.hpp]

    The header defines a hash-keyed skiplist on top of a [std::list] of
    nodes.  Every node carries a vector of [std::list] iterators (its
    forward links).  The development below models

    - the node sequence as a list of cells, each cell being a node together
      with the address of the list cell that holds it, so that an iterator
      is a stable reference to a cell (as a [std::list] iterator is) and not
      a position;
    - member functions as computations in a state-and-fault monad over the
      skiplist object; undefined behaviour of the C++ program (dereferencing
      the past-the-end iterator, indexing a vector out of range) is the fault
      [Undefined], and a loop that has not finished within its budget of
      iterations is the fault [OutOfFuel];
    - [size_t] values as integers with the wrap-around modulo [2^64]
      written out where the source subtracts; [max_lv_], which only counts
      loop iterations and vector entries, is a natural number;
    - memory as unbounded: [vector::resize] and [list::insert] always get
      their storage. *)

From Stdlib Require Import ZArith QArith List Bool Arith Lia.
Import ListNotations.

Set Implicit Arguments.
Local Close Scope Q_scope.
Local Open Scope nat_scope.

(** ** Iterators, nodes and the object *)

(** [std::numeric_limits<hash_type>::min()] and [max()] for the default
    hasher, whose [result_type] is the 64-bit [size_t]. *)
Definition size_t_modulus : Z := (2 ^ 64)%Z.
Definition hash_min : Z := 0%Z.
Definition hash_max : Z := (size_t_modulus - 1)%Z.

(** A [std::list<node_type>::iterator]: a reference to the list cell at
    address [a], the past-the-end iterator [cont_.end()], or a
    value-initialised (singular) iterator as [vector::resize] creates. *)
Inductive iterator : Type :=
| At (a : nat)
| End
| Singular.

Definition iterator_eqb (i j : iterator) : bool :=
  match i, j with
  | At a, At b => a =? b
  | End, End => true
  | Singular, Singular => true
  | _, _ => false
  end.

(** What can go wrong in a run: undefined behaviour, or a loop budget that
    ran out. *)
Inductive fault : Type :=
| Undefined
| OutOfFuel.

Inductive res (A : Type) : Type :=
| Ret (a : A)
| Fault (f : fault).
Arguments Fault {A} f.

(** [skiplist_detail::random_level]: the parameters handed to the
    [std::binomial_distribution] member [dist], and the random engine.  The
    engine is modelled by the sequence [outcomes] of the values that
    successive calls [dist(gen)] return and the number [calls] of calls made
    so far.  [success] is a [double] in the source; it is only stored and
    passed on, so the model carries a rational. *)
Record random_level : Type := mk_random_level {
  trials : Z;
  success : Q;
  outcomes : nat -> Z;
  calls : nat
}.

(** [random_level(IntType max_level, double prob) : dist(max_level - 1, prob)],
    with [IntType = size_t]: the subtraction wraps. *)
Definition random_level_ctor (rd : nat -> Z) (max_level : nat) (prob : Q)
  : random_level :=
  {| trials := ((Z.of_nat max_level - 1) mod size_t_modulus)%Z;
     success := prob;
     outcomes := rd;
     calls := 0 |}.

Section Model.

Variable Value : Type.
Variable hasher : Value -> Z.

(** [skiplist_detail::InternalNode<Key, Value>]. *)
Record InternalNode : Type := mkNode {
  key : Z;
  values : list Value;
  forwards : list iterator
}.

(** The only two ways a node is ever changed: [key] is [const]. *)
Definition set_forwards (fs : list iterator) (n : InternalNode) : InternalNode :=
  {| key := key n; values := values n; forwards := fs |}.

Definition set_values (vs : list Value) (n : InternalNode) : InternalNode :=
  {| key := key n; values := vs; forwards := forwards n |}.

(** [std::list<node_type>]: the cells in sequence order, each with its
    address. *)
Definition container : Type := list (nat * InternalNode).

Record skiplist : Type := mkSkiplist {
  max_lv_ : nat;
  prob_ : Q;
  rl_ : random_level;
  cont_ : container
}.

Definition set_cont (c : container) (s : skiplist) : skiplist :=
  {| max_lv_ := max_lv_ s; prob_ := prob_ s; rl_ := rl_ s; cont_ := c |}.

Definition set_rl (r : random_level) (s : skiplist) : skiplist :=
  {| max_lv_ := max_lv_ s; prob_ := prob_ s; rl_ := r; cont_ := cont_ s |}.

(** ** The state-and-fault monad of member functions *)

Definition M (A : Type) : Type := skiplist -> res (A * skiplist).

Definition ret {A : Type} (a : A) : M A := fun s => Ret (a, s).

Definition bind {A B : Type} (m : M A) (f : A -> M B) : M B :=
  fun s =>
    match m s with
    | Ret (a, s') => f a s'
    | Fault e => Fault e
    end.

Definition fail {A : Type} (e : fault) : M A := fun _ => Fault e.

Definition gets {A : Type} (f : skiplist -> A) : M A := fun s => Ret (f s, s).

Definition modify (f : skiplist -> skiplist) : M unit := fun s => Ret (tt, f s).

Local Notation "x <- m ;; k" := (bind m (fun x => k))
  (at level 61, m at next level, right associativity).

(** ** [std::list] primitives *)

(** The node held by the cell at address [a]. *)
Fixpoint lookup (a : nat) (c : container) : option InternalNode :=
  match c with
  | [] => None
  | (b, n) :: c' => if a =? b then Some n else lookup a c'
  end.

(** Position of the cell at address [a] in the sequence. *)
Fixpoint index_of (a : nat) (c : container) : option nat :=
  match c with
  | [] => None
  | (b, _) :: c' => if a =? b then Some 0 else option_map S (index_of a c')
  end.

Definition list_begin (c : container) : iterator :=
  match c with
  | [] => End
  | (a, _) :: _ => At a
  end.

(** [std::next] of the iterator to the cell at address [a]. *)
Fixpoint list_next (a : nat) (c : container) : option iterator :=
  match c with
  | [] => None
  | (b, _) :: c' => if a =? b then Some (list_begin c') else list_next a c'
  end.

(** An address no cell of [c] has: where [std::list::insert] allocates. *)
Definition fresh (c : container) : nat :=
  fold_right (fun cell m => Nat.max (S (fst cell)) m) 0 c.

(** The sequence after inserting [cell] before [pos]; [None] when [pos] is
    no iterator of this list. *)
Fixpoint insert_before (pos : iterator) (cell : nat * InternalNode)
  (c : container) : option container :=
  match c with
  | [] => match pos with End => Some [cell] | _ => None end
  | (b, n) :: c' =>
      if iterator_eqb pos (At b) then Some (cell :: c)
      else option_map (cons (b, n)) (insert_before pos cell c')
  end.

(** The sequence with the node of the cell at address [a] replaced by its
    image under [f]. *)
Fixpoint update (a : nat) (f : InternalNode -> InternalNode) (c : container)
  : container :=
  match c with
  | [] => []
  | (b, n) :: c' => if a =? b then (b, f n) :: c' else (b, n) :: update a f c'
  end.

(** Dereferencing an iterator, [it->...]. *)
Definition deref (it : iterator) : M InternalNode :=
  fun s =>
    match it with
    | At a =>
        match lookup a (cont_ s) with
        | Some n => Ret (n, s)
        | None => Fault Undefined
        end
    | _ => Fault Undefined
    end.

(** Writing through a non-const iterator: the node [it] refers to is
    replaced by its image under [f]. *)
Definition assign (it : iterator) (f : InternalNode -> InternalNode) : M unit :=
  _ <- deref it ;;
  match it with
  | At a => modify (fun s => set_cont (update a f (cont_ s)) s)
  | _ => fail Undefined
  end.

(** [cont_.begin()], [cont_.end()], [std::next(it)] *)
Definition cont_begin : M iterator := gets (fun s => list_begin (cont_ s)).

Definition cont_end : M iterator := ret End.

Definition next (it : iterator) : M iterator :=
  fun s =>
    match it with
    | At a =>
        match list_next a (cont_ s) with
        | Some j => Ret (j, s)
        | None => Fault Undefined
        end
    | _ => Fault Undefined
    end.

(** [cont_.insert(pos, std::move(node))]: a new cell before [pos]; returns
    the iterator to it. *)
Definition cont_insert (pos : iterator) (node : InternalNode) : M iterator :=
  fun s =>
    let a := fresh (cont_ s) in
    match insert_before pos (a, node) (cont_ s) with
    | Some c => Ret (At a, set_cont c s)
    | None => Fault Undefined
    end.

(** [it->forwards[focus]] *)
Definition forward_at (it : iterator) (focus : nat) : M iterator :=
  n <- deref it ;;
  match nth_error (forwards n) focus with
  | Some f => ret f
  | None => fail Undefined
  end.

(** ** Construction *)

(** [init_internally()], lines 98-124. *)
Definition init_internally : M unit :=
  max_lv <- gets max_lv_ ;;
  let tail_key := hash_max in
  let tail := mkNode tail_key [] [] in
  (* tail.forwards.resize(max_lv_) *)
  let tail := set_forwards (repeat Singular max_lv) tail in
  (* std::fill(tail.forwards.begin(), tail.forwards.end(), cont_.end()) *)
  e <- cont_end ;;
  let tail := set_forwards (map (fun _ => e) (forwards tail)) tail in
  (* cont_.insert(cont_.begin(), std::move(tail)) *)
  b <- cont_begin ;;
  _ <- cont_insert b tail ;;
  let head_key := hash_min in
  let head := mkNode head_key [] [] in
  (* head.forwards.resize(max_lv_) *)
  let head := set_forwards (repeat Singular max_lv) head in
  (* cont_.insert(cont_.begin(), std::move(head)) *)
  b <- cont_begin ;;
  _ <- cont_insert b head ;;
  (* std::fill(cont_.begin()->forwards.begin(), cont_.begin()->forwards.end(),
               std::next(cont_.begin())) *)
  b <- cont_begin ;;
  b' <- cont_begin ;;
  nx <- next b' ;;
  assign b (fun n => set_forwards (map (fun _ => nx) (forwards n)) n).

(** The object before the constructor body runs: the member initialisers
    have run, [cont_] is empty. *)
Definition members (rd : nat -> Z) (max_lv : nat) (prob : Q) : skiplist :=
  {| max_lv_ := max_lv;
     prob_ := prob;
     rl_ := random_level_ctor rd max_lv prob;
     cont_ := [] |}.

(** Running a constructor body on the initialised members. *)
Definition construct (body : M unit) (init : skiplist) : res skiplist :=
  match body init with
  | Ret (_, s) => Ret s
  | Fault e => Fault e
  end.

(** [explicit skiplist(const size_type max_lv, const double prob = 0.5)],
    lines 75-78.  [rd] stands for the entropy of [std::random_device]. *)
Definition skiplist_ctor (rd : nat -> Z) (max_lv : nat) (prob : Q)
  : res skiplist :=
  construct init_internally (members rd max_lv prob).

(** [skiplist()], lines 72-74, with the default member initialisers
    [max_lv_ = 16] and [prob_ = 0.5]. *)
Definition skiplist_default (rd : nat -> Z) : res skiplist :=
  construct init_internally (members rd 16 (1 # 2)%Q).

(** ** Descent and lookup *)

(** The inner [for] loop of [find_helper], lines 134-138, entered with the
    current [iter] and the [forward] its initialiser or its step computed:
    [forward != cont_.end() and not compare()(forward->key, key)] guards the
    body [iter = forward], and the step reloads [iter->forwards[focus]]. *)
Fixpoint scan (fuel : nat) (k : Z) (focus : nat) (iter forward : iterator)
  : M iterator :=
  match fuel with
  | 0 => fail OutOfFuel
  | S fuel' =>
      if iterator_eqb forward End then ret iter
      else
        fn <- deref forward ;;
        if negb (key fn <? k)%Z then
          let iter := forward in
          forward <- forward_at iter focus ;;
          scan fuel' k focus iter forward
        else ret iter
  end.

(** The outer loop, lines 131-140: [n] iterations are left and the counter
    stands at [i]; [focus = max_lv_ - 1 - i]. *)
Fixpoint levels (fuel : nat) (k : Z) (max_lv n i : nat) (iter : iterator)
  : M iterator :=
  match n with
  | 0 => ret iter
  | S n' =>
      let focus := max_lv - 1 - i in
      forward <- forward_at iter focus ;;
      iter <- scan fuel k focus iter forward ;;
      levels fuel k max_lv n' (S i) iter
  end.

(** [find_helper(key)], lines 129-142.  Every inner loop gets the budget
    [fuel]. *)
Definition find_helper (fuel : nat) (k : Z) : M iterator :=
  max_lv <- gets max_lv_ ;;
  iter <- cont_begin ;;
  levels fuel k max_lv max_lv 0 iter.

(** [find(target)], lines 171-175. *)
Definition find (fuel : nat) (target : Value) : M iterator :=
  let k := hasher target in
  iter <- find_helper fuel k ;;
  n <- deref iter ;;
  if (key n =? k)%Z then ret iter else cont_end.

(** ** Size and iteration *)

(** [size()], lines 145-147: [cont_.size() - 2] in [size_t]. *)
Definition size : M Z :=
  gets (fun s => ((Z.of_nat (length (cont_ s)) - 2) mod size_t_modulus)%Z).

(** [empty()], lines 148-150. *)
Definition empty : M bool :=
  n <- size ;;
  ret (n =? 0)%Z.

(** [begin()], [cbegin()], [end()], [cend()], lines 151-168. *)
Definition begin : M iterator := cont_begin.
Definition cbegin : M iterator := cont_begin.
Definition end_ : M iterator := cont_end.
Definition cend : M iterator := cont_end.

(** A client's forward iteration
    [for (it = first; it != last; ++it)], collecting the nodes visited. *)
Fixpoint walk (fuel : nat) (it last : iterator) : M (list InternalNode) :=
  match fuel with
  | 0 => fail OutOfFuel
  | S fuel' =>
      if iterator_eqb it last then ret []
      else
        n <- deref it ;;
        it' <- next it ;;
        rest <- walk fuel' it' last ;;
        ret (n :: rest)
  end.

(** Iteration from [begin()] to [end()]. *)
Definition traverse (fuel : nat) : M (list InternalNode) :=
  first <- begin ;;
  last <- end_ ;;
  walk fuel first last.

(** ** Insertion and bulk construction *)

(** [rl_()], line 45: the next outcome of [dist(gen)]; the engine moves on. *)
Definition rl_call : M Z :=
  fun s =>
    let r := rl_ s in
    Ret (outcomes r (calls r),
         set_rl (mk_random_level (trials r) (success r) (outcomes r)
                   (S (calls r))) s).

(** [it->forwards[i] = target] *)
Definition store_forward (it : iterator) (i : nat) (target : iterator) : M unit :=
  n <- deref it ;;
  if i <? length (forwards n) then
    assign it (fun m =>
      set_forwards (firstn i (forwards m) ++ target :: skipn (S i) (forwards m)) m)
  else fail Undefined.

(** Modelled from the spec: the nearest node to the left that participates
    in level [i], found by re-descending, which is the descent of
    [find_helper] stopped after level [i]. *)
Definition predecessor_at (fuel : nat) (k : Z) (i : nat) : M iterator :=
  max_lv <- gets max_lv_ ;;
  iter <- cont_begin ;;
  levels fuel k max_lv (max_lv - i) 0 iter.

(** Modelled from the spec: the relinking of section 4.4, for each level
    [i] in [[0, lvl)]: the new node's [forwards[i]] takes over the previous
    [forwards[i]] of the nearest node to its left that participates in level
    [i], and that node's [forwards[i]] is updated to point to the new node.
    [n] levels are left and the loop stands at level [i]. *)
Fixpoint relink (fuel : nat) (k : Z) (node : iterator) (n i : nat) : M unit :=
  match n with
  | 0 => ret tt
  | S n' =>
      left <- predecessor_at fuel k i ;;
      f <- forward_at left i ;;
      _ <- store_forward node i f ;;
      _ <- store_forward left i node ;;
      relink fuel k node n' (S i)
  end.

(** Modelled from the spec: [insert(value)] of section 4.4, which the range
    constructor calls and the header does not define.  The descent is
    [find_helper], the single building block of section 4.2 that lookup and
    insertion share; the level count is 1 + the value the level generator
    draws, and the new node is sized with it. *)
Definition insert (fuel : nat) (value : Value) : M unit :=
  let k := hasher value in
  predecessor <- find_helper fuel k ;;
  pn <- deref predecessor ;;
  if (key pn =? k)%Z then
    assign predecessor (fun n => set_values (value :: values n) n)
  else
    g <- rl_call ;;
    let lvl := S (Z.to_nat g) in
    let node := mkNode k [value] (repeat Singular lvl) in
    after <- next predecessor ;;
    it <- cont_insert after node ;;
    relink fuel k it lvl 0.

(** The loop of the range constructor, lines 87-89:
    [for (InputIt i = first; i != last; ++i) insert( *i )]. *)
Fixpoint insert_range (fuel : nat) (input : list Value) : M unit :=
  match input with
  | [] => ret tt
  | v :: rest =>
      _ <- insert fuel v ;;
      insert_range fuel rest
  end.




(** ** Structural conditions on a state *)

(** The forward link [f] of the node at position [p] refers to a cell
    strictly later in the sequence, or is the end marker. *)
Definition later (c : container) (p : nat) (f : iterator) : bool :=
  match f with
  | End => true
  | At b =>
      match index_of b c with
      | Some q => p <? q
      | None => false
      end
  | Singular => false
  end.

Fixpoint links_later_from (whole : container) (p : nat) (c : container) : bool :=
  match c with
  | [] => true
  | (_, n) :: c' =>
      forallb (later whole p) (forwards n) && links_later_from whole (S p) c'
  end.

(** Every forward link of every node points strictly later or to the end
    marker. *)
Definition links_later (c : container) : bool := links_later_from c 0 c.

(** Every node has [max_lv] forward entries. *)
Definition sized (max_lv : nat) (c : container) : bool :=
  forallb (fun cell => length (forwards (snd cell)) =? max_lv) c.

(** No two cells share an address. *)
Fixpoint distinct (l : list nat) : bool :=
  match l with
  | [] => true
  | a :: l' => negb (existsb (Nat.eqb a) l') && distinct l'
  end.

Definition addresses (c : container) : list nat := map fst c.

(** The head sentinel is there. *)
Definition has_head (c : container) : bool :=
  match c with
  | [] => false
  | _ :: _ => true
  end.

(** Keys strictly increase along the sequence. *)
Fixpoint keys_increasing (c : container) : bool :=
  match c with
  | [] => true
  | (_, n) :: c' =>
      match c' with
      | [] => true
      | (_, m) :: _ => (key n <? key m)%Z
      end && keys_increasing c'
  end.

(** Only the last cell, the tail sentinel, has forward entries that are the
    end marker. *)
Fixpoint ends_only_at_tail (c : container) : bool :=
  match c with
  | [] => true
  | (_, n) :: c' =>
      match c' with
      | [] => true
      | _ :: _ => forallb (fun f => negb (iterator_eqb f End)) (forwards n)
      end && ends_only_at_tail c'
  end.

(** The cell at address [a] is the first, respectively the last, of the
    sequence: the head and the tail sentinel. *)
Definition is_head (c : container) (a : nat) : Prop := index_of a c = Some 0.

Definition is_tail (c : container) (a : nat) : Prop :=
  exists p, index_of a c = Some p /\ S p = length c.

(** The nodes strictly between the first and the last cell. *)
Definition interior (c : container) : list InternalNode :=
  map snd (removelast (tl c)).

(** ** Properties of computations *)

(** A computation that leaves the object as it found it. *)
Definition readonly {A : Type} (m : M A) : Prop :=
  forall s a s', m s = Ret (a, s') -> s' = s.

(** A computation after which every cell that existed before still exists
    and holds a node with the key it had. *)
Definition keeps_keys {A : Type} (m : M A) : Prop :=
  forall s r s', m s = Ret (r, s') ->
  forall a n, lookup a (cont_ s) = Some n ->
  exists n', lookup a (cont_ s') = Some n' /\ key n' = key n.

(** The state of a skiplist nobody has inserted into: no interior node is
    counted, and the sequence is the head sentinel, whose [max_lv] forward
    entries all refer to the cell directly after it, followed by the tail
    sentinel, whose [max_lv] forward entries are all the end marker. *)
Definition two_sentinels (max_lv : nat) (s : skiplist) : Prop :=
  size s = Ret (0%Z, s) /\
  empty s = Ret (true, s) /\
  exists h t,
    h <> t /\
    cont_ s = [ (h, mkNode hash_min [] (repeat (At t) max_lv));
                (t, mkNode hash_max [] (repeat End max_lv)) ].

(** ** The operations of the header, as one type *)

Inductive operation : Type :=
| OpInitInternally
| OpFindHelper (fuel : nat) (k : Z)
| OpFind (fuel : nat) (target : Value)
| OpSize
| OpEmpty
| OpBegin
| OpEnd.

Definition discard {A : Type} (m : M A) : M unit := _ <- m ;; ret tt.

Definition run (o : operation) : M unit :=
  match o with
  | OpInitInternally => init_internally
  | OpFindHelper fuel k => discard (find_helper fuel k)
  | OpFind fuel target => discard (find fuel target)
  | OpSize => discard size
  | OpEmpty => discard empty
  | OpBegin => discard begin
  | OpEnd => discard end_
  end.

(** ** What an insertion may and may not change *)



(** ** The object the constructors leave, and the debug checks *)

(** The object [init_internally] leaves when it starts on the empty
    sequence: the head sentinel in the cell at address 1, the tail sentinel
    in the cell at address 0. *)
Definition constructed (rd : nat -> Z) (max_lv : nat) (prob : Q) : skiplist :=
  set_cont [ (1, mkNode hash_min [] (repeat (At 0) max_lv));
             (0, mkNode hash_max [] (repeat End max_lv)) ]
           (members rd max_lv prob).

(** [for (auto it : forwards) assert(check(it))]: the loop stops at the
    first assertion that fails. *)
Fixpoint assert_each (check : iterator -> M bool) (fs : list iterator)
  : M bool :=
  match fs with
  | [] => ret true
  | it :: fs' =>
      ok <- check it ;;
      if ok then assert_each check fs' else ret false
  end.

(** The assertions at the end of [init_internally], lines 112-119, which
    are compiled under [LIAM_UT_DEBUG_]: [true] when all of them pass. *)
Definition debug_asserts : M bool :=
  let tail_key := hash_max in
  let head_key := hash_min in
  (* assert(cont_.begin()->key == head_key) *)
  b <- cont_begin ;;
  hn <- deref b ;;
  if (key hn =? head_key)%Z then
    (* for (auto it : cont_.begin()->forwards) assert(it->key == tail_key) *)
    ok <- assert_each
            (fun it => n <- deref it ;; ret (key n =? tail_key)%Z)
            (forwards hn) ;;
    if ok then
      (* for (auto it : std::next(cont_.begin())->forwards)
           assert(it == cont_.end()) *)
      b' <- cont_begin ;;
      nx <- next b' ;;
      tn <- deref nx ;;
      assert_each (fun it => e <- cont_end ;; ret (iterator_eqb it e))
                  (forwards tn)
    else ret false
  else ret false.

End Model.

Arguments Ret {A} a.
Arguments init_internally {Value}.
Arguments cont_begin {Value}.
Arguments cont_end {Value}.
Arguments size {Value}.
Arguments empty {Value}.
Arguments begin {Value}.
Arguments cbegin {Value}.
Arguments end_ {Value}.
Arguments cend {Value}.
Arguments rl_call {Value}.
Arguments debug_asserts {Value}.

(** ** Concrete states *)

(** The hasher of the examples: [std::hash<size_t>] as the identity. *)
Definition id_hash (v : Z) : Z := v.

(** An engine whose every draw is 0. *)
Definition zeros (_ : nat) : Z := 0%Z.

(** A one-level skiplist holding the value 5 under the key 5, between the
    two sentinels: head at address 1, the node at address 2, tail at
    address 0. *)
Definition one_node : skiplist Z :=
  {| max_lv_ := 1;
     prob_ := (1 # 2)%Q;
     rl_ := random_level_ctor zeros 1 (1 # 2)%Q;
     cont_ := [ (1, mkNode hash_min [] [At 2]);
                (2, mkNode 5%Z [5%Z] [At 0]);
                (0, mkNode hash_max [] [End]) ] |}.

(** The state the default constructor leaves. *)
Definition fresh_default : skiplist Z :=
  {| max_lv_ := 16;
     prob_ := (1 # 2)%Q;
     rl_ := random_level_ctor zeros 16 (1 # 2)%Q;
     cont_ := [ (1, mkNode hash_min [] (repeat (At 0) 16));
                (0, mkNode hash_max [] (repeat End 16)) ] |}.


(** * Proofs *)

Unset Implicit Arguments.

Section Proofs.

Variable Value : Type.
Variable hasher : Value -> Z.

Local Notation "x <- m ;; k" := (bind m (fun x => k))
  (at level 61, m at next level, right associativity).

(** ** The monad *)

Lemma bind_inv (A B : Type) (m : M Value A) (f : A -> M Value B) s b s' :
  bind m f s = Ret (b, s') ->
  exists a s1, m s = Ret (a, s1) /\ f a s1 = Ret (b, s').
Proof.
  unfold bind. destruct (m s) as [[a s1]|e]; [|discriminate].
  intros H. exists a, s1. split; [reflexivity|exact H].
Qed.

Lemma bind_ret_eq (A B : Type) (m : M Value A) (f : A -> M Value B) s a s1 :
  m s = Ret (a, s1) -> bind m f s = f a s1.
Proof. unfold bind. intros ->. reflexivity. Qed.

(** Runs the first computation of a [bind] whose outcome [H] gives. *)
Ltac run_bind H := erewrite bind_ret_eq by exact H.

Lemma bind_fault (A B : Type) (m : M Value A) (f : A -> M Value B) s e :
  m s = Fault e -> bind m f s = Fault e.
Proof. unfold bind. intros ->. reflexivity. Qed.

(** ** Read-only computations *)

Lemma readonly_ret (A : Type) (a : A) : readonly (ret (Value := Value) a).
Proof. intros s a' s' H. inversion H. reflexivity. Qed.

Lemma readonly_fail (A : Type) e : readonly (fail (Value := Value) (A := A) e).
Proof. intros s a' s' H. discriminate H. Qed.

Lemma readonly_gets (A : Type) (f : skiplist Value -> A) : readonly (gets f).
Proof. intros s a' s' H. inversion H. reflexivity. Qed.

Lemma readonly_bind (A B : Type) (m : M Value A) (f : A -> M Value B) :
  readonly m -> (forall a, readonly (f a)) -> readonly (bind m f).
Proof.
  intros Hm Hf s b s' H.
  apply bind_inv in H. destruct H as (a & s1 & H1 & H2).
  apply Hm in H1. subst s1. exact (Hf a _ _ _ H2).
Qed.

Lemma readonly_deref it : readonly (deref (Value := Value) it).
Proof.
  intros s n s' H. unfold deref in H.
  destruct it; try discriminate.
  destruct (lookup a (cont_ s)); inversion H. reflexivity.
Qed.

Lemma readonly_next it : readonly (next (Value := Value) it).
Proof.
  intros s n s' H. unfold next in H.
  destruct it; try discriminate.
  destruct (list_next a (cont_ s)); inversion H. reflexivity.
Qed.

Lemma readonly_cont_begin : readonly (cont_begin (Value := Value)).
Proof. apply readonly_gets. Qed.

Lemma readonly_cont_end : readonly (cont_end (Value := Value)).
Proof. apply readonly_ret. Qed.

Lemma readonly_forward_at it focus :
  readonly (forward_at (Value := Value) it focus).
Proof.
  unfold forward_at. apply readonly_bind; [apply readonly_deref|].
  intros n. destruct (nth_error (forwards n) focus).
  - apply readonly_ret.
  - apply readonly_fail.
Qed.

Lemma readonly_scan fuel k focus iter forward :
  readonly (scan (Value := Value) fuel k focus iter forward).
Proof.
  revert iter forward.
  induction fuel as [|fuel IH]; intros iter forward; simpl.
  - apply readonly_fail.
  - destruct (iterator_eqb forward End); [apply readonly_ret|].
    apply readonly_bind; [apply readonly_deref|].
    intros fn. destruct (negb (key fn <? k)%Z); [|apply readonly_ret].
    apply readonly_bind; [apply readonly_forward_at|].
    intros forward'. apply IH.
Qed.

Lemma readonly_levels fuel k max_lv n i iter :
  readonly (levels (Value := Value) fuel k max_lv n i iter).
Proof.
  revert i iter.
  induction n as [|n IH]; intros i iter; simpl.
  - apply readonly_ret.
  - apply readonly_bind; [apply readonly_forward_at|].
    intros forward.
    apply readonly_bind; [apply readonly_scan|].
    intros iter'. apply IH.
Qed.

Lemma readonly_find_helper fuel k :
  readonly (find_helper (Value := Value) fuel k).
Proof.
  unfold find_helper.
  apply readonly_bind; [apply readonly_gets|]. intros max_lv.
  apply readonly_bind; [apply readonly_cont_begin|]. intros iter.
  apply readonly_levels.
Qed.

Lemma readonly_find fuel target : readonly (find hasher fuel target).
Proof.
  unfold find.
  apply readonly_bind; [apply readonly_find_helper|]. intros iter.
  apply readonly_bind; [apply readonly_deref|]. intros n.
  destruct (key n =? hasher target)%Z.
  - apply readonly_ret.
  - apply readonly_cont_end.
Qed.

Lemma readonly_size : readonly (size (Value := Value)).
Proof. apply readonly_gets. Qed.

Lemma readonly_empty : readonly (empty (Value := Value)).
Proof.
  unfold empty. apply readonly_bind; [apply readonly_size|].
  intros n. apply readonly_ret.
Qed.

Lemma readonly_discard (A : Type) (m : M Value A) :
  readonly m -> readonly (discard m).
Proof.
  intros H. unfold discard. apply readonly_bind; [exact H|].
  intros a. apply readonly_ret.
Qed.

(** ** Cells, addresses and positions *)

Lemma index_of_nth a (c : container Value) p :
  index_of a c = Some p ->
  exists n, lookup a c = Some n /\ nth_error c p = Some (a, n).
Proof.
  revert p. induction c as [|[b m] c IH]; intros p; simpl.
  - discriminate.
  - destruct (a =? b) eqn:E.
    + intros H. inversion H; subst p. apply Nat.eqb_eq in E. subst b.
      exists m. split; reflexivity.
    + destruct (index_of a c) as [q|]; simpl; [|discriminate].
      intros H. inversion H; subst p.
      destruct (IH q eq_refl) as (n & H1 & H2).
      exists n. split; assumption.
Qed.

Lemma lookup_index a (c : container Value) n :
  lookup a c = Some n -> exists p, index_of a c = Some p.
Proof.
  induction c as [|[b m] c IH]; simpl.
  - discriminate.
  - destruct (a =? b).
    + intros _. exists 0. reflexivity.
    + intros H. destruct (IH H) as [p Hp]. exists (S p).
      rewrite Hp. reflexivity.
Qed.

Lemma index_of_bound a (c : container Value) p :
  index_of a c = Some p -> p < length c.
Proof.
  intros H. destruct (index_of_nth _ _ _ H) as (n & _ & Hn).
  apply nth_error_Some. rewrite Hn. discriminate.
Qed.

Lemma links_later_from_nth (whole c : container Value) p i a n :
  links_later_from whole p c = true ->
  nth_error c i = Some (a, n) ->
  forallb (later whole (p + i)) (forwards n) = true.
Proof.
  revert p i. induction c as [|[b m] c IH]; intros p i H Hn.
  - destruct i; discriminate.
  - simpl in H. apply andb_true_iff in H. destruct H as [H1 H2].
    destruct i as [|i]; simpl in Hn.
    + inversion Hn; subst. rewrite Nat.add_0_r. exact H1.
    + rewrite <- Nat.add_succ_comm. apply IH; assumption.
Qed.

Lemma links_later_at (c : container Value) a p n focus f :
  links_later c = true ->
  index_of a c = Some p ->
  lookup a c = Some n ->
  nth_error (forwards n) focus = Some f ->
  later c p f = true.
Proof.
  intros Hl Hi Hn Hf.
  destruct (index_of_nth _ _ _ Hi) as (n' & Hn' & Hp).
  rewrite Hn in Hn'. inversion Hn'; subst n'.
  pose proof (links_later_from_nth _ _ 0 _ _ _ Hl Hp) as H.
  simpl in H. rewrite forallb_forall in H.
  apply H. eapply nth_error_In. exact Hf.
Qed.

Lemma sized_lookup max_lv (c : container Value) a n :
  sized max_lv c = true -> lookup a c = Some n -> length (forwards n) = max_lv.
Proof.
  intros Hs Hn.
  destruct (lookup_index _ _ _ Hn) as [p Hp].
  destruct (index_of_nth _ _ _ Hp) as (n' & Hn' & Hnth).
  rewrite Hn in Hn'. inversion Hn'; subst n'.
  unfold sized in Hs. rewrite forallb_forall in Hs.
  apply nth_error_In in Hnth. apply Hs in Hnth.
  simpl in Hnth. apply Nat.eqb_eq in Hnth. exact Hnth.
Qed.

Lemma sized_forward max_lv (c : container Value) a n focus :
  sized max_lv c = true -> lookup a c = Some n -> focus < max_lv ->
  exists f, nth_error (forwards n) focus = Some f.
Proof.
  intros Hs Hn Hlt.
  pose proof (sized_lookup _ _ _ _ Hs Hn) as Hlen.
  destruct (nth_error (forwards n) focus) as [f|] eqn:E.
  - exists f. reflexivity.
  - apply nth_error_None in E. lia.
Qed.

(** ** Evaluating the reads *)

Lemma deref_At (s : skiplist Value) a n :
  lookup a (cont_ s) = Some n -> deref (At a) s = Ret (n, s).
Proof. intros H. unfold deref. rewrite H. reflexivity. Qed.

Lemma forward_at_eq (s : skiplist Value) a n focus f :
  lookup a (cont_ s) = Some n ->
  nth_error (forwards n) focus = Some f ->
  forward_at (At a) focus s = Ret (f, s).
Proof.
  intros Hn Hf. unfold forward_at.
  run_bind (deref_At _ _ _ Hn). rewrite Hf. reflexivity.
Qed.

Lemma forward_at_none (s : skiplist Value) a n focus :
  lookup a (cont_ s) = Some n ->
  nth_error (forwards n) focus = None ->
  forward_at (At a) focus s = Fault Undefined.
Proof.
  intros Hn Hf. unfold forward_at.
  run_bind (deref_At _ _ _ Hn). rewrite Hf. reflexivity.
Qed.

(** ** The descent never runs out of budget when links point later *)

Lemma scan_finishes (s : skiplist Value) k focus fuel :
  links_later (cont_ s) = true ->
  forall a p n forward,
    index_of a (cont_ s) = Some p ->
    lookup a (cont_ s) = Some n ->
    nth_error (forwards n) focus = Some forward ->
    length (cont_ s) - p <= fuel ->
    scan fuel k focus (At a) forward s = Fault Undefined \/
    exists a' p',
      scan fuel k focus (At a) forward s = Ret (At a', s) /\
      index_of a' (cont_ s) = Some p'.
Proof.
  intros Hl.
  induction fuel as [|fuel IH]; intros a p n forward Hi Hn Hf Hfuel.
  - apply index_of_bound in Hi. lia.
  - pose proof (links_later_at _ _ _ _ _ _ Hl Hi Hn Hf) as Hlater.
    destruct forward as [b| |]; simpl in Hlater; try discriminate.
    + destruct (index_of b (cont_ s)) as [q|] eqn:Hq; [|discriminate].
      apply Nat.ltb_lt in Hlater.
      destruct (index_of_nth _ _ _ Hq) as (nb & Hnb & _).
      cbn [scan iterator_eqb].
      run_bind (deref_At _ _ _ Hnb).
      destruct (negb (key nb <? k)%Z).
      * destruct (nth_error (forwards nb) focus) as [f'|] eqn:Hf'.
        -- run_bind (forward_at_eq _ _ _ _ _ Hnb Hf').
           apply (IH b q nb f' Hq Hnb Hf'). lia.
        -- left. apply bind_fault. exact (forward_at_none _ _ _ _ Hnb Hf').
      * right. exists a, p. split; [reflexivity|exact Hi].
    + right. exists a, p. split; [reflexivity|exact Hi].
Qed.

Lemma levels_finishes (s : skiplist Value) k max_lv fuel :
  links_later (cont_ s) = true ->
  length (cont_ s) <= fuel ->
  forall n i a p,
    index_of a (cont_ s) = Some p ->
    levels fuel k max_lv n i (At a) s = Fault Undefined \/
    exists a' p',
      levels fuel k max_lv n i (At a) s = Ret (At a', s) /\
      index_of a' (cont_ s) = Some p'.
Proof.
  intros Hl Hfuel.
  induction n as [|n IH]; intros i a p Hi.
  - right. exists a, p. split; [reflexivity|exact Hi].
  - cbn [levels].
    destruct (index_of_nth _ _ _ Hi) as (na & Hna & _).
    destruct (nth_error (forwards na) (max_lv - 1 - i)) as [f|] eqn:Hf.
    + run_bind (forward_at_eq _ _ _ _ _ Hna Hf).
      destruct (scan_finishes s k (max_lv - 1 - i) fuel Hl a p na f Hi Hna Hf)
        as [Hu | (b & q & Hscan & Hq)]; [lia| |].
      * left. apply bind_fault. exact Hu.
      * run_bind Hscan. apply (IH (S i) b q Hq).
    + left. apply bind_fault. exact (forward_at_none _ _ _ _ Hna Hf).
Qed.

Lemma find_helper_finishes (s : skiplist Value) k fuel :
  links_later (cont_ s) = true ->
  length (cont_ s) <= fuel ->
  find_helper fuel k s = Fault Undefined \/
  exists it, find_helper fuel k s = Ret (it, s).
Proof.
  intros Hl Hfuel. unfold find_helper.
  erewrite bind_ret_eq by reflexivity.
  destruct (cont_ s) as [|[h nh] c] eqn:Hc.
  - assert (Hb : cont_begin s = Ret (End, s)).
    { unfold cont_begin, gets. rewrite Hc. reflexivity. }
    run_bind Hb.
    destruct (max_lv_ s) as [|n].
    + right. exists End. reflexivity.
    + left. reflexivity.
  - assert (Hb : cont_begin s = Ret (At h, s)).
    { unfold cont_begin, gets. rewrite Hc. reflexivity. }
    assert (Hi : index_of h (cont_ s) = Some 0).
    { rewrite Hc. simpl. rewrite Nat.eqb_refl. reflexivity. }
    run_bind Hb. rewrite <- Hc in Hl, Hfuel.
    destruct (levels_finishes s k (max_lv_ s) fuel Hl Hfuel (max_lv_ s) 0 h 0 Hi)
      as [Hu | (a & p & Hlev & _)].
    + left. exact Hu.
    + right. exists (At a). exact Hlev.
Qed.

Lemma find_finishes (s : skiplist Value) target fuel :
  links_later (cont_ s) = true ->
  length (cont_ s) <= fuel ->
  find hasher fuel target s = Fault Undefined \/
  exists it, find hasher fuel target s = Ret (it, s).
Proof.
  intros Hl Hfuel. unfold find.
  destruct (find_helper_finishes s (hasher target) fuel Hl Hfuel)
    as [Hu | (it & Hit)].
  - left. apply bind_fault. exact Hu.
  - run_bind Hit.
    destruct (deref it s) as [[n s1]|e] eqn:Hd.
    + pose proof (readonly_deref _ _ _ _ Hd) as Hs1. subst s1.
      run_bind Hd. right.
      destruct (key n =? hasher target)%Z; eexists; reflexivity.
    + left. assert (e = Undefined) as ->.
      { unfold deref in Hd. destruct it; try (inversion Hd; reflexivity).
        destruct (lookup a (cont_ s)); inversion Hd. reflexivity. }
      apply bind_fault. exact Hd.
Qed.

(** ** The descent is total on well-linked states *)

Lemma scan_total (s : skiplist Value) k focus fuel :
  sized (max_lv_ s) (cont_ s) = true ->
  links_later (cont_ s) = true ->
  focus < max_lv_ s ->
  forall a p n forward,
    index_of a (cont_ s) = Some p ->
    lookup a (cont_ s) = Some n ->
    nth_error (forwards n) focus = Some forward ->
    length (cont_ s) - p <= fuel ->
    exists a' p',
      scan fuel k focus (At a) forward s = Ret (At a', s) /\
      index_of a' (cont_ s) = Some p'.
Proof.
  intros Hs Hl Hfocus.
  induction fuel as [|fuel IH]; intros a p n forward Hi Hn Hf Hfuel.
  - apply index_of_bound in Hi. lia.
  - pose proof (links_later_at _ _ _ _ _ _ Hl Hi Hn Hf) as Hlater.
    destruct forward as [b| |]; simpl in Hlater; try discriminate.
    + destruct (index_of b (cont_ s)) as [q|] eqn:Hq; [|discriminate].
      apply Nat.ltb_lt in Hlater.
      destruct (index_of_nth _ _ _ Hq) as (nb & Hnb & _).
      cbn [scan iterator_eqb].
      run_bind (deref_At _ _ _ Hnb).
      destruct (negb (key nb <? k)%Z).
      * destruct (sized_forward _ _ _ _ _ Hs Hnb Hfocus) as [f' Hf'].
        run_bind (forward_at_eq _ _ _ _ _ Hnb Hf').
        apply (IH b q nb f' Hq Hnb Hf'). lia.
      * exists a, p. split; [reflexivity|exact Hi].
    + exists a, p. split; [reflexivity|exact Hi].
Qed.

Lemma levels_total (s : skiplist Value) k fuel :
  sized (max_lv_ s) (cont_ s) = true ->
  links_later (cont_ s) = true ->
  length (cont_ s) <= fuel ->
  forall n i a p,
    i + n = max_lv_ s ->
    index_of a (cont_ s) = Some p ->
    exists a' p',
      levels fuel k (max_lv_ s) n i (At a) s = Ret (At a', s) /\
      index_of a' (cont_ s) = Some p'.
Proof.
  intros Hs Hl Hfuel.
  induction n as [|n IH]; intros i a p Hin Hi.
  - exists a, p. split; [reflexivity|exact Hi].
  - cbn [levels].
    assert (Hfocus : max_lv_ s - 1 - i < max_lv_ s) by lia.
    destruct (index_of_nth _ _ _ Hi) as (na & Hna & _).
    destruct (sized_forward _ _ _ _ _ Hs Hna Hfocus) as [f Hf].
    run_bind (forward_at_eq _ _ _ _ _ Hna Hf).
    destruct (scan_total _ k _ fuel Hs Hl Hfocus _ _ _ _ Hi Hna Hf) as (b & q & Hscan & Hq);
      [lia|].
    run_bind Hscan.
    apply (IH (S i) b q); [lia|exact Hq].
Qed.

Lemma find_helper_total (s : skiplist Value) k fuel :
  has_head (cont_ s) = true ->
  sized (max_lv_ s) (cont_ s) = true ->
  links_later (cont_ s) = true ->
  length (cont_ s) <= fuel ->
  exists a n,
    find_helper fuel k s = Ret (At a, s) /\ lookup a (cont_ s) = Some n.
Proof.
  intros Hh Hs Hl Hfuel.
  destruct (cont_ s) as [|[h nh] c] eqn:Hc; [discriminate|].
  assert (Hb : cont_begin s = Ret (At h, s)).
  { unfold cont_begin, gets. rewrite Hc. reflexivity. }
  assert (Hi : index_of h (cont_ s) = Some 0).
  { rewrite Hc. simpl. rewrite Nat.eqb_refl. reflexivity. }
  rewrite <- Hc in Hs, Hl, Hfuel.
  destruct (levels_total _ k _ Hs Hl Hfuel (max_lv_ s) 0 _ _ eq_refl Hi)
    as (a & p & Hlev & Hp).
  destruct (index_of_nth _ _ _ Hp) as (n & Hn & _).
  exists a, n. split; [|rewrite <- Hc; exact Hn].
  unfold find_helper.
  erewrite bind_ret_eq by reflexivity.
  run_bind Hb. exact Hlev.
Qed.

Lemma find_total (s : skiplist Value) target fuel :
  has_head (cont_ s) = true ->
  sized (max_lv_ s) (cont_ s) = true ->
  links_later (cont_ s) = true ->
  length (cont_ s) <= fuel ->
  exists a n,
    find_helper fuel (hasher target) s = Ret (At a, s) /\
    lookup a (cont_ s) = Some n /\
    find hasher fuel target s
      = Ret (if (key n =? hasher target)%Z then At a else End, s).
Proof.
  intros Hh Hs Hl Hfuel.
  destruct (find_helper_total _ (hasher target) _ Hh Hs Hl Hfuel)
    as (a & n & Hfh & Hn).
  exists a, n. split; [exact Hfh|]. split; [exact Hn|].
  unfold find.
  run_bind Hfh.
  run_bind (deref_At _ _ _ Hn).
  destruct (key n =? hasher target)%Z; reflexivity.
Qed.

(** ** Construction *)

Lemma map_const_repeat (A B : Type) (x : A) (y : B) n :
  map (fun _ => y) (repeat x n) = repeat y n.
Proof. induction n as [|n IH]; simpl; [reflexivity|]. rewrite IH. reflexivity. Qed.

(** What [init_internally] leaves when it starts on the empty sequence: the
    head sentinel at address 1, followed by the tail sentinel at address 0. *)
Lemma init_internally_members rd max_lv prob :
  init_internally (members Value rd max_lv prob)
  = Ret (tt,
         set_cont [ (1, mkNode hash_min [] (repeat (At 0) max_lv));
                    (0, mkNode hash_max [] (repeat End max_lv)) ]
                  (members Value rd max_lv prob)).
Proof.
  unfold init_internally, assign.
  unfold members, bind, gets, cont_begin, cont_end, ret, cont_insert, next,
    deref, modify, set_cont, set_forwards.
  simpl. rewrite !map_const_repeat. reflexivity.
Qed.

(** ** Keys survive every write *)

Lemma lookup_fresh a (c : container Value) n :
  lookup a c = Some n -> a < fresh c.
Proof.
  unfold fresh. induction c as [|[b m] c IH]; cbn [lookup fold_right fst].
  - discriminate.
  - destruct (a =? b) eqn:E.
    + intros _. apply Nat.eqb_eq in E. lia.
    + intros H. apply IH in H. lia.
Qed.

Lemma lookup_insert_before pos x node (c c' : container Value) a :
  insert_before pos (x, node) c = Some c' ->
  a <> x ->
  lookup a c' = lookup a c.
Proof.
  intros H Hne. apply Nat.eqb_neq in Hne.
  revert c' H. induction c as [|[b m] c IH]; intros c' H; simpl in H.
  - destruct pos; try discriminate. inversion H; subst c'.
    simpl. rewrite Hne. reflexivity.
  - destruct (iterator_eqb pos (At b)).
    + inversion H; subst c'. simpl. rewrite Hne. reflexivity.
    + destruct (insert_before pos (x, node) c) as [c1|]; [|discriminate].
      simpl in H. inversion H; subst c'. simpl.
      destruct (a =? b); [reflexivity|]. apply IH. reflexivity.
Qed.

Lemma lookup_update a b f (c : container Value) :
  lookup a (update b f c)
  = if a =? b then option_map f (lookup a c) else lookup a c.
Proof.
  induction c as [|[b' m] c IH]; simpl.
  - destruct (a =? b); reflexivity.
  - destruct (b =? b') eqn:Ebb'; simpl.
    + apply Nat.eqb_eq in Ebb'. subst b'.
      destruct (a =? b); reflexivity.
    + destruct (a =? b') eqn:Eab'.
      * apply Nat.eqb_eq in Eab'. subst b'.
        rewrite Nat.eqb_sym in Ebb'. rewrite Ebb'. reflexivity.
      * exact IH.
Qed.

Lemma keeps_keys_readonly (A : Type) (m : M Value A) :
  readonly m -> keeps_keys m.
Proof.
  intros Hm s r s' H a n Hn. apply Hm in H. subst s'.
  exists n. split; [exact Hn|reflexivity].
Qed.

Lemma keeps_keys_bind (A B : Type) (m : M Value A) (f : A -> M Value B) :
  keeps_keys m -> (forall a, keeps_keys (f a)) -> keeps_keys (bind m f).
Proof.
  intros Hm Hf s r s' H a n Hn.
  apply bind_inv in H. destruct H as (x & s1 & H1 & H2).
  destruct (Hm _ _ _ H1 _ _ Hn) as (n1 & Hn1 & Hk1).
  destruct (Hf x _ _ _ H2 _ _ Hn1) as (n2 & Hn2 & Hk2).
  exists n2. split; [exact Hn2|]. rewrite Hk2. exact Hk1.
Qed.

Lemma keeps_keys_cont_insert pos node :
  keeps_keys (cont_insert (Value := Value) pos node).
Proof.
  intros s r s' H a n Hn. unfold cont_insert in H.
  destruct (insert_before pos (fresh (cont_ s), node) (cont_ s)) as [c'|] eqn:E;
    [|discriminate].
  inversion H; subst r s'. simpl.
  exists n. split; [|reflexivity].
  rewrite (lookup_insert_before _ _ _ _ _ a E); [exact Hn|].
  apply lookup_fresh in Hn. lia.
Qed.

Lemma keeps_keys_assign it (f : InternalNode Value -> InternalNode Value) :
  (forall n, key (f n) = key n) -> keeps_keys (assign it f).
Proof.
  intros Hf. unfold assign.
  apply keeps_keys_bind; [apply keeps_keys_readonly, readonly_deref|].
  intros _. destruct it as [b| |];
    try (intros s r s' H; discriminate H).
  intros s r s' H a n Hn. unfold modify in H. inversion H; subst r s'.
  simpl. rewrite lookup_update, Hn.
  destruct (a =? b); simpl.
  - exists (f n). split; [reflexivity|apply Hf].
  - exists n. split; reflexivity.
Qed.

Lemma keeps_keys_init_internally : keeps_keys (init_internally (Value := Value)).
Proof.
  unfold init_internally.
  apply keeps_keys_bind; [apply keeps_keys_readonly, readonly_gets|]. intros max_lv.
  apply keeps_keys_bind; [apply keeps_keys_readonly, readonly_cont_end|]. intros e.
  apply keeps_keys_bind; [apply keeps_keys_readonly, readonly_cont_begin|]. intros b.
  apply keeps_keys_bind; [apply keeps_keys_cont_insert|]. intros _.
  apply keeps_keys_bind; [apply keeps_keys_readonly, readonly_cont_begin|]. intros b0.
  apply keeps_keys_bind; [apply keeps_keys_cont_insert|]. intros _.
  apply keeps_keys_bind; [apply keeps_keys_readonly, readonly_cont_begin|]. intros b1.
  apply keeps_keys_bind; [apply keeps_keys_readonly, readonly_cont_begin|]. intros b2.
  apply keeps_keys_bind; [apply keeps_keys_readonly, readonly_next|]. intros nx.
  apply keeps_keys_assign. intros n. reflexivity.
Qed.

Lemma keeps_keys_rl_call : keeps_keys (rl_call (Value := Value)).
Proof.
  intros s r s' H a n Hn. unfold rl_call in H. inversion H; subst r s'.
  simpl. exists n. split; [exact Hn|reflexivity].
Qed.

Lemma keeps_keys_store_forward it i target :
  keeps_keys (store_forward (Value := Value) it i target).
Proof.
  unfold store_forward.
  apply keeps_keys_bind; [apply keeps_keys_readonly, readonly_deref|]. intros n.
  destruct (i <? length (forwards n)).
  - apply keeps_keys_assign. intros m. reflexivity.
  - apply keeps_keys_readonly, readonly_fail.
Qed.

Lemma readonly_predecessor_at fuel k i :
  readonly (predecessor_at (Value := Value) fuel k i).
Proof.
  unfold predecessor_at.
  apply readonly_bind; [apply readonly_gets|]. intros max_lv.
  apply readonly_bind; [apply readonly_cont_begin|]. intros iter.
  apply readonly_levels.
Qed.

Lemma keeps_keys_relink fuel k node n i :
  keeps_keys (relink (Value := Value) fuel k node n i).
Proof.
  revert i. induction n as [|n IH]; intros i; simpl.
  - apply keeps_keys_readonly, readonly_ret.
  - apply keeps_keys_bind;
      [apply keeps_keys_readonly, readonly_predecessor_at|]. intros left.
    apply keeps_keys_bind;
      [apply keeps_keys_readonly, readonly_forward_at|]. intros f.
    apply keeps_keys_bind; [apply keeps_keys_store_forward|]. intros _.
    apply keeps_keys_bind; [apply keeps_keys_store_forward|]. intros _.
    apply IH.
Qed.

(** The modelled [insert] changes no key either. *)
Lemma keeps_keys_insert fuel value : keeps_keys (insert hasher fuel value).
Proof.
  unfold insert.
  apply keeps_keys_bind;
    [apply keeps_keys_readonly, readonly_find_helper|]. intros predecessor.
  apply keeps_keys_bind; [apply keeps_keys_readonly, readonly_deref|]. intros pn.
  destruct (key pn =? hasher value)%Z.
  - apply keeps_keys_assign. intros n. reflexivity.
  - apply keeps_keys_bind; [apply keeps_keys_rl_call|]. intros g.
    apply keeps_keys_bind; [apply keeps_keys_readonly, readonly_next|]. intros after.
    apply keeps_keys_bind; [apply keeps_keys_cont_insert|]. intros it.
    apply keeps_keys_relink.
Qed.

Lemma keeps_keys_insert_range fuel input :
  keeps_keys (insert_range hasher fuel input).
Proof.
  induction input as [|v rest IH]; simpl.
  - apply keeps_keys_readonly, readonly_ret.
  - apply keeps_keys_bind; [apply keeps_keys_insert|]. intros _. exact IH.
Qed.

Lemma keeps_keys_run o : keeps_keys (run hasher o).
Proof.
  destruct o; simpl.
  - apply keeps_keys_init_internally.
  - apply keeps_keys_readonly, readonly_discard, readonly_find_helper.
  - apply keeps_keys_readonly, readonly_discard, readonly_find.
  - apply keeps_keys_readonly, readonly_discard, readonly_size.
  - apply keeps_keys_readonly, readonly_discard, readonly_empty.
  - apply keeps_keys_readonly, readonly_discard, readonly_cont_begin.
  - apply keeps_keys_readonly, readonly_discard, readonly_cont_end.
Qed.

(** ** Iteration *)

Lemma distinct_NoDup l : distinct l = true -> NoDup l.
Proof.
  induction l as [|a l IH]; simpl; intros H.
  - constructor.
  - apply andb_true_iff in H. destruct H as [H1 H2].
    constructor; [|apply IH; exact H2].
    intros Hin. apply negb_true_iff in H1.
    assert (existsb (Nat.eqb a) l = true) as E.
    { apply existsb_exists. exists a. split; [exact Hin|apply Nat.eqb_refl]. }
    rewrite E in H1. discriminate.
Qed.

Lemma lookup_app_notin a n (pre rest : container Value) :
  ~ In a (addresses pre) ->
  lookup a (pre ++ (a, n) :: rest) = Some n.
Proof.
  induction pre as [|[b m] pre IH]; simpl; intros Hnotin.
  - rewrite Nat.eqb_refl. reflexivity.
  - destruct (a =? b) eqn:E.
    + apply Nat.eqb_eq in E. subst b. exfalso. apply Hnotin. left. reflexivity.
    + apply IH. intros Hin. apply Hnotin. right. exact Hin.
Qed.

Lemma list_next_app_notin a n (pre rest : container Value) :
  ~ In a (addresses pre) ->
  list_next a (pre ++ (a, n) :: rest) = Some (list_begin rest).
Proof.
  induction pre as [|[b m] pre IH]; simpl; intros Hnotin.
  - rewrite Nat.eqb_refl. reflexivity.
  - destruct (a =? b) eqn:E.
    + apply Nat.eqb_eq in E. subst b. exfalso. apply Hnotin. left. reflexivity.
    + apply IH. intros Hin. apply Hnotin. right. exact Hin.
Qed.

Lemma walk_suffix (s : skiplist Value) :
  NoDup (addresses (cont_ s)) ->
  forall rest pre fuel,
    cont_ s = pre ++ rest ->
    length rest < fuel ->
    walk fuel (list_begin rest) End s = Ret (map snd rest, s).
Proof.
  intros Hnd. induction rest as [|[a n] rest IH]; intros pre fuel Hc Hfuel.
  - destruct fuel as [|fuel]; [simpl in Hfuel; lia|]. reflexivity.
  - destruct fuel as [|fuel]; [lia|].
    assert (Hnotin : ~ In a (addresses pre)).
    { rewrite Hc in Hnd. unfold addresses in Hnd. rewrite map_app in Hnd.
      simpl in Hnd. apply NoDup_remove_2 in Hnd.
      intros Hin. apply Hnd. apply in_or_app. left. exact Hin. }
    cbn [walk list_begin iterator_eqb].
    assert (Hd : deref (At a) s = Ret (n, s)).
    { apply deref_At. rewrite Hc. apply lookup_app_notin. exact Hnotin. }
    assert (Hnx : next (At a) s = Ret (list_begin rest, s)).
    { unfold next. rewrite Hc, (list_next_app_notin _ _ _ _ Hnotin). reflexivity. }
    run_bind Hd. run_bind Hnx.
    assert (Hw : walk fuel (list_begin rest) End s = Ret (map snd rest, s)).
    { apply (IH (pre ++ [(a, n)])).
      - rewrite Hc, <- app_assoc. reflexivity.
      - simpl in Hfuel. lia. }
    run_bind Hw. reflexivity.
Qed.

Lemma traverse_all (s : skiplist Value) fuel :
  distinct (addresses (cont_ s)) = true ->
  length (cont_ s) < fuel ->
  traverse fuel s = Ret (map snd (cont_ s), s).
Proof.
  intros Hd Hfuel. unfold traverse, begin, end_, cont_begin, cont_end.
  erewrite bind_ret_eq by reflexivity.
  erewrite bind_ret_eq by reflexivity.
  apply (walk_suffix s (distinct_NoDup _ Hd) (cont_ s) []); [reflexivity|exact Hfuel].
Qed.

(** ** Where the descent really ends on an ordered skiplist *)

Lemma keys_increasing_first a n (c : container Value) :
  keys_increasing ((a, n) :: c) = true ->
  Forall (fun cell => (key n < key (snd cell))%Z) c.
Proof.
  revert a n. induction c as [|[b m] c IH]; intros a n H.
  - constructor.
  - cbn [keys_increasing] in H. apply andb_true_iff in H. destruct H as [H1 H2].
    apply Z.ltb_lt in H1.
    constructor; [exact H1|].
    apply (Forall_impl _ (P := fun cell => (key m < key (snd cell))%Z)).
    + intros cell Hc. lia.
    + apply (IH b m). exact H2.
Qed.

Lemma keys_increasing_nth (c : container Value) :
  keys_increasing c = true ->
  forall i j a n b m,
    i < j ->
    nth_error c i = Some (a, n) ->
    nth_error c j = Some (b, m) ->
    (key n < key m)%Z.
Proof.
  induction c as [|[x nx] c IH]; intros H i j a n b m Hij Hi Hj.
  - destruct i; discriminate.
  - destruct j as [|j]; [lia|]. simpl in Hj.
    destruct i as [|i]; simpl in Hi.
    + inversion Hi; subst x nx.
      pose proof (keys_increasing_first _ _ _ H) as Hall.
      rewrite Forall_forall in Hall.
      apply nth_error_In in Hj. exact (Hall _ Hj).
    + cbn [keys_increasing] in H. apply andb_true_iff in H. destruct H as [_ H].
      apply (IH H i j a n b m); [lia|exact Hi|exact Hj].
Qed.

Lemma ends_only_at_tail_nth (c : container Value) :
  ends_only_at_tail c = true ->
  forall p a n,
    nth_error c p = Some (a, n) ->
    In End (forwards n) ->
    S p = length c.
Proof.
  induction c as [|[x nx] c IH]; intros H p a n Hp Hin.
  - destruct p; discriminate.
  - cbn [ends_only_at_tail] in H. apply andb_true_iff in H. destruct H as [H1 H2].
    destruct p as [|p]; simpl in Hp.
    + inversion Hp; subst x nx.
      destruct c as [|y c]; [reflexivity|].
      rewrite forallb_forall in H1. apply H1 in Hin. discriminate.
    + simpl. f_equal. exact (IH H2 p a n Hp Hin).
Qed.

Section Ordered.

Variable s : skiplist Value.
Variable k : Z.

Hypothesis Hsized : sized (max_lv_ s) (cont_ s) = true.
Hypothesis Hlater : links_later (cont_ s) = true.
Hypothesis Hkeys : keys_increasing (cont_ s) = true.
Hypothesis Hends : ends_only_at_tail (cont_ s) = true.

(** Once the scan stands on a node whose key is not below the target, it
    runs on to the tail sentinel. *)
Lemma scan_runs_to_tail focus fuel :
  focus < max_lv_ s ->
  forall b q nb f,
    index_of b (cont_ s) = Some q ->
    lookup b (cont_ s) = Some nb ->
    (k <= key nb)%Z ->
    nth_error (forwards nb) focus = Some f ->
    length (cont_ s) - q <= fuel ->
    exists t,
      scan fuel k focus (At b) f s = Ret (At t, s) /\ is_tail (cont_ s) t.
Proof.
  intros Hfocus.
  induction fuel as [|fuel IH]; intros b q nb f Hq Hnb Hk Hf Hfuel.
  - apply index_of_bound in Hq. lia.
  - pose proof (links_later_at _ _ _ _ _ _ Hlater Hq Hnb Hf) as Hl.
    destruct (index_of_nth _ _ _ Hq) as (nb0 & Hnb0 & Hnth).
    rewrite Hnb in Hnb0. inversion Hnb0; subst nb0.
    destruct f as [b'| |]; simpl in Hl; try discriminate.
    + destruct (index_of b' (cont_ s)) as [q'|] eqn:Hq'; [|discriminate].
      apply Nat.ltb_lt in Hl.
      destruct (index_of_nth _ _ _ Hq') as (nb' & Hnb' & Hnth').
      pose proof (keys_increasing_nth _ Hkeys _ _ _ _ _ _ Hl Hnth Hnth') as Hlt.
      cbn [scan iterator_eqb].
      run_bind (deref_At _ _ _ Hnb').
      replace (key nb' <? k)%Z with false by (symmetry; apply Z.ltb_ge; lia).
      cbn [negb].
      destruct (sized_forward _ _ _ _ _ Hsized Hnb' Hfocus) as [f' Hf'].
      run_bind (forward_at_eq _ _ _ _ _ Hnb' Hf').
      apply (IH b' q' nb' f' Hq' Hnb'); [lia|exact Hf'|lia].
    + exists b. split; [reflexivity|].
      exists q. split; [exact Hq|].
      apply (ends_only_at_tail_nth _ Hends q b nb Hnth).
      eapply nth_error_In. exact Hf.
Qed.

(** One level of the descent leaves the iterator where it was or takes it
    to the tail sentinel. *)
Lemma scan_stays_or_reaches_tail focus fuel a p n f :
  focus < max_lv_ s ->
  index_of a (cont_ s) = Some p ->
  lookup a (cont_ s) = Some n ->
  nth_error (forwards n) focus = Some f ->
  length (cont_ s) - p <= fuel ->
  exists r,
    scan fuel k focus (At a) f s = Ret (At r, s) /\
    (r = a \/ is_tail (cont_ s) r).
Proof.
  intros Hfocus Hp Hn Hf Hfuel.
  destruct fuel as [|fuel]; [apply index_of_bound in Hp; lia|].
  pose proof (links_later_at _ _ _ _ _ _ Hlater Hp Hn Hf) as Hl.
  destruct f as [b| |]; simpl in Hl; try discriminate.
  - destruct (index_of b (cont_ s)) as [q|] eqn:Hq; [|discriminate].
    apply Nat.ltb_lt in Hl.
    destruct (index_of_nth _ _ _ Hq) as (nb & Hnb & _).
    cbn [scan iterator_eqb].
    run_bind (deref_At _ _ _ Hnb).
    destruct (key nb <? k)%Z eqn:E; cbn [negb].
    + exists a. split; [reflexivity|left; reflexivity].
    + apply Z.ltb_ge in E.
      destruct (sized_forward _ _ _ _ _ Hsized Hnb Hfocus) as [f' Hf'].
      run_bind (forward_at_eq _ _ _ _ _ Hnb Hf').
      destruct (scan_runs_to_tail focus fuel Hfocus b q nb f' Hq Hnb E Hf')
        as (t & Ht & Htail); [lia|].
      exists t. split; [exact Ht|right; exact Htail].
  - exists a. split; [reflexivity|left; reflexivity].
Qed.

Lemma levels_stay_or_reach_tail fuel :
  length (cont_ s) <= fuel ->
  forall n i a p,
    i + n = max_lv_ s ->
    index_of a (cont_ s) = Some p ->
    exists r,
      levels fuel k (max_lv_ s) n i (At a) s = Ret (At r, s) /\
      (r = a \/ is_tail (cont_ s) r).
Proof.
  intros Hfuel.
  induction n as [|n IH]; intros i a p Hin Hp.
  - exists a. split; [reflexivity|left; reflexivity].
  - cbn [levels].
    assert (Hfocus : max_lv_ s - 1 - i < max_lv_ s) by lia.
    destruct (index_of_nth _ _ _ Hp) as (na & Hna & _).
    destruct (sized_forward _ _ _ _ _ Hsized Hna Hfocus) as [f Hf].
    run_bind (forward_at_eq _ _ _ _ _ Hna Hf).
    destruct (scan_stays_or_reaches_tail _ fuel a p na f Hfocus Hp Hna Hf)
      as (r1 & Hscan & Hr1); [lia|].
    run_bind Hscan.
    destruct Hr1 as [-> | Htail].
    + apply (IH (S i) a p); [lia|exact Hp].
    + destruct Htail as (q & Hq & Hlast).
      destruct (IH (S i) r1 q) as (r & Hr & Hcase); [lia|exact Hq|].
      exists r. split; [exact Hr|]. right.
      destruct Hcase as [-> | Ht]; [exists q; split; assumption|exact Ht].
Qed.

End Ordered.

(** ** What the scan leaves behind *)

Lemma scan_stops fuel k focus :
  forall iter forward (s : skiplist Value) it',
    forward_at iter focus s = Ret (forward, s) ->
    scan fuel k focus iter forward s = Ret (it', s) ->
    exists f,
      forward_at it' focus s = Ret (f, s) /\
      (f = End \/ exists fn, deref f s = Ret (fn, s) /\ (key fn < k)%Z).
Proof.
  induction fuel as [|fuel IH]; intros iter forward s it' Hfw Hscan;
    simpl in Hscan.
  - discriminate.
  - destruct (iterator_eqb forward End) eqn:E.
    + unfold ret in Hscan. inversion Hscan; subst it'.
      exists forward. split; [exact Hfw|]. left.
      destruct forward; try discriminate. reflexivity.
    + apply bind_inv in Hscan. destruct Hscan as (fn & s1 & Hd & Hrest).
      pose proof (readonly_deref _ _ _ _ Hd) as Hs1. subst s1.
      destruct (key fn <? k)%Z eqn:Ek; cbn [negb] in Hrest.
      * unfold ret in Hrest. inversion Hrest; subst it'.
        exists forward. split; [exact Hfw|]. right.
        exists fn. split; [exact Hd|]. apply Z.ltb_lt. exact Ek.
      * apply bind_inv in Hrest. destruct Hrest as (f' & s2 & Hf' & Hrec).
        pose proof (readonly_forward_at _ _ _ _ _ Hf') as Hs2. subst s2.
        exact (IH forward f' s it' Hf' Hrec).
Qed.

Lemma levels_stop fuel k max_lv :
  forall n i iter (s : skiplist Value) it',
    0 < n ->
    i + n = max_lv ->
    levels fuel k max_lv n i iter s = Ret (it', s) ->
    exists f,
      forward_at it' 0 s = Ret (f, s) /\
      (f = End \/ exists fn, deref f s = Ret (fn, s) /\ (key fn < k)%Z).
Proof.
  induction n as [|n IH]; intros i iter s it' Hn Hin H; [lia|].
  cbn [levels] in H.
  apply bind_inv in H. destruct H as (fw & s1 & Hfw & H).
  pose proof (readonly_forward_at _ _ _ _ _ Hfw) as Hs1. subst s1.
  apply bind_inv in H. destruct H as (it1 & s2 & Hscan & H).
  pose proof (readonly_scan _ _ _ _ _ _ _ _ Hscan) as Hs2. subst s2.
  destruct n as [|n].
  - cbn [levels] in H. unfold ret in H. inversion H; subst it'.
    replace (max_lv - 1 - i) with 0 in Hfw, Hscan by lia.
    exact (scan_stops fuel k 0 iter fw s it1 Hfw Hscan).
  - apply (IH (S i) it1 s it'); [lia|lia|exact H].
Qed.

(** ** Bulk construction *)



(** ** The modelled insertion *)























(** ** Main theorems *)

(** C6. Immediately after construction, with explicit [max_lv] and [prob]
    or by default (16 and 0.5), [size()] returns 0, [empty()] returns true,
    and the sequence is exactly the head sentinel with the minimum key,
    whose [max_lv] forward entries all point to the tail directly after it,
    followed by the tail sentinel with the maximum key, whose [max_lv]
    forward entries all are the end marker. *)
Theorem ctor_two_sentinels (rd : nat -> Z) (max_lv : nat) (prob : Q) :
  (exists s, skiplist_ctor Value rd max_lv prob = Ret s /\
             max_lv_ s = max_lv /\ prob_ s = prob /\
             two_sentinels max_lv s) /\
  (exists s, skiplist_default Value rd = Ret s /\
             max_lv_ s = 16 /\ prob_ s = (1 # 2)%Q /\
             two_sentinels 16 s).
Proof.
  assert (H : forall lv pr,
    exists s, construct init_internally (members Value rd lv pr) = Ret s /\
              max_lv_ s = lv /\ prob_ s = pr /\ two_sentinels lv s).
  { intros lv pr. unfold construct.
    rewrite init_internally_members.
    eexists. split; [reflexivity|]. split; [reflexivity|].
    split; [reflexivity|].
    split; [reflexivity|]. split; [reflexivity|].
    exists 1, 0. split; [discriminate|reflexivity]. }
  split.
  - apply H.
  - apply H.
Qed.

(** C7. On every state in which each forward link points to a node
    strictly later in the sequence or to the end marker, [find_helper] and
    [find] terminate: with a budget of one iteration per node for every
    inner loop they never run out of it.  When moreover the head is there
    and every node carries [max_lv_] forward entries, as in every skiplist
    the constructors build, they return, and the descent ends on a node of
    the sequence. *)
Theorem find_terminates (s : skiplist Value) (target : Value) (k : Z)
  (fuel : nat) :
  links_later (cont_ s) = true ->
  length (cont_ s) <= fuel ->
  (find_helper fuel k s = Fault Undefined \/
   exists it, find_helper fuel k s = Ret (it, s)) /\
  (find hasher fuel target s = Fault Undefined \/
   exists it, find hasher fuel target s = Ret (it, s)) /\
  (has_head (cont_ s) = true ->
   sized (max_lv_ s) (cont_ s) = true ->
   (exists a n, find_helper fuel k s = Ret (At a, s) /\
                lookup a (cont_ s) = Some n) /\
   (exists it, find hasher fuel target s = Ret (it, s))).
Proof.
  intros Hl Hfuel. split; [|split].
  - apply find_helper_finishes; assumption.
  - apply find_finishes; assumption.
  - intros Hh Hs. split.
    + apply find_helper_total; assumption.
    + destruct (find_total s target fuel Hh Hs Hl Hfuel)
        as (a & n & _ & _ & Hf).
      eexists. exact Hf.
Qed.

(** C2, as the code has it.  [find(v)] computes [key = hash(v)] and returns
    either the end iterator or an iterator to a node of the sequence whose
    key equals [key]; no test keeps that node from being a sentinel. *)
Theorem find_returns_end_or_matching_key (s : skiplist Value)
  (target : Value) (fuel : nat) :
  has_head (cont_ s) = true ->
  sized (max_lv_ s) (cont_ s) = true ->
  links_later (cont_ s) = true ->
  length (cont_ s) <= fuel ->
  exists it,
    find hasher fuel target s = Ret (it, s) /\
    (it = End \/
     exists a n, it = At a /\ lookup a (cont_ s) = Some n /\
                 key n = hasher target).
Proof.
  intros Hh Hs Hl Hfuel.
  destruct (find_total s target fuel Hh Hs Hl Hfuel) as (a & n & _ & Hn & Hf).
  eexists. split; [exact Hf|].
  destruct (key n =? hasher target)%Z eqn:E.
  - right. exists a, n. split; [reflexivity|]. split; [exact Hn|].
    apply Z.eqb_eq. exact E.
  - left. reflexivity.
Qed.

(** C9. [find(v)] has no side effects: whenever it returns, the object is
    the one it started from - the node sequence with every node's key,
    values and forward links, and the configuration. *)
Theorem find_no_side_effects (s s' : skiplist Value) (target : Value)
  (fuel : nat) (it : iterator) :
  find hasher fuel target s = Ret (it, s') ->
  s' = s /\ cont_ s' = cont_ s.
Proof.
  intros H. apply readonly_find in H. subst s'. split; reflexivity.
Qed.

(** C10. No operation of the header changes the key of a node that exists:
    after any of them, the cell is still there and holds a node with the
    same key. *)
Theorem node_keys_immutable (o : operation Value) (s s' : skiplist Value)
  (a : nat) (n : InternalNode Value) :
  run hasher o s = Ret (tt, s') ->
  lookup a (cont_ s) = Some n ->
  exists n', lookup a (cont_ s') = Some n' /\ key n' = key n.
Proof.
  intros H Hn. exact (keeps_keys_run o s tt s' H a n Hn).
Qed.

(** C5, as the code has it.  Iteration from [begin()] to [end()] starts at
    the head sentinel and walks the whole sequence: it yields the head
    sentinel, then the interior nodes in sequence order, then the tail
    sentinel. *)
Theorem traverse_yields_whole_sequence (s : skiplist Value) (fuel : nat)
  (h t : nat) (head tail : InternalNode Value) (mid : container Value) :
  cont_ s = (h, head) :: mid ++ [(t, tail)] ->
  distinct (addresses (cont_ s)) = true ->
  length (cont_ s) < fuel ->
  begin s = Ret (At h, s) /\
  interior (cont_ s) = map snd mid /\
  traverse fuel s = Ret (head :: interior (cont_ s) ++ [tail], s).
Proof.
  intros Hc Hd Hfuel.
  assert (Hi : interior (cont_ s) = map snd mid).
  { unfold interior. rewrite Hc. simpl. rewrite removelast_last. reflexivity. }
  split; [|split].
  - unfold begin, cont_begin, gets. rewrite Hc. reflexivity.
  - exact Hi.
  - rewrite (traverse_all s fuel Hd Hfuel), Hi, Hc.
    simpl. rewrite map_app. reflexivity.
Qed.

(** ** Further properties of the code *)

(** X1. On a skiplist that satisfies the data model - the head is there,
    every node has [max_lv_] forward entries, links point strictly later or
    to the end, keys strictly increase along the sequence, and only the
    tail has end links - [find_helper] returns the head sentinel or the
    tail sentinel, whatever the key; so [find] returns the end iterator or
    an iterator to a sentinel, and never one to an interior node. *)
Theorem find_helper_returns_a_sentinel (s : skiplist Value) (target : Value)
  (k : Z) (fuel : nat) :
  has_head (cont_ s) = true ->
  sized (max_lv_ s) (cont_ s) = true ->
  links_later (cont_ s) = true ->
  keys_increasing (cont_ s) = true ->
  ends_only_at_tail (cont_ s) = true ->
  length (cont_ s) <= fuel ->
  (exists r, find_helper fuel k s = Ret (At r, s) /\
             (is_head (cont_ s) r \/ is_tail (cont_ s) r)) /\
  (exists it, find hasher fuel target s = Ret (it, s) /\
              (it = End \/
               exists r, it = At r /\
                         (is_head (cont_ s) r \/ is_tail (cont_ s) r))).
Proof.
  intros Hh Hs Hl Hk He Hfuel.
  assert (H : forall k', exists r n,
             find_helper fuel k' s = Ret (At r, s) /\
             lookup r (cont_ s) = Some n /\
             (is_head (cont_ s) r \/ is_tail (cont_ s) r)).
  { intros k'.
    destruct (cont_ s) as [|[h nh] c] eqn:Hc; [discriminate|].
    assert (Hb : cont_begin s = Ret (At h, s)).
    { unfold cont_begin, gets. rewrite Hc. reflexivity. }
    assert (Hi : index_of h (cont_ s) = Some 0).
    { rewrite Hc. simpl. rewrite Nat.eqb_refl. reflexivity. }
    rewrite <- Hc in *.
    destruct (levels_stay_or_reach_tail s k' Hs Hl Hk He fuel Hfuel
                (max_lv_ s) 0 h 0 eq_refl Hi) as (r & Hr & Hcase).
    assert (Hn : exists n, lookup r (cont_ s) = Some n).
    { destruct Hcase as [-> | (q & Hq & _)].
      - destruct (index_of_nth _ _ _ Hi) as (n & Hn & _). exists n. exact Hn.
      - destruct (index_of_nth _ _ _ Hq) as (n & Hn & _). exists n. exact Hn. }
    destruct Hn as [n Hn].
    exists r, n. split; [|split; [exact Hn|]].
    - unfold find_helper. erewrite bind_ret_eq by reflexivity.
      run_bind Hb. exact Hr.
    - destruct Hcase as [-> | Ht]; [left; exact Hi|right; exact Ht]. }
  split.
  - destruct (H k) as (r & n & Hr & _ & Hcase). exists r. split; assumption.
  - destruct (H (hasher target)) as (r & n & Hr & Hn & Hcase).
    unfold find. run_bind Hr. run_bind (deref_At _ _ _ Hn).
    destruct (key n =? hasher target)%Z.
    + exists (At r). split; [reflexivity|]. right. exists r.
      split; [reflexivity|exact Hcase].
    + exists End. split; [reflexivity|]. left. reflexivity.
Qed.

(** X2. When [find_helper] returns on a skiplist with at least one level,
    the level-0 forward entry of the node returned is the end marker or
    refers to a node whose key is strictly below the target: the scan stops
    in front of the first smaller key, not the first greater one. *)
Theorem find_helper_stops_before_smaller_key (s s' : skiplist Value) (k : Z)
  (fuel : nat) (it : iterator) :
  0 < max_lv_ s ->
  find_helper fuel k s = Ret (it, s') ->
  exists f,
    forward_at it 0 s = Ret (f, s) /\
    (f = End \/ exists fn, deref f s = Ret (fn, s) /\ (key fn < k)%Z).
Proof.
  intros Hlv H.
  pose proof (readonly_find_helper _ _ _ _ _ H) as Hs. subst s'.
  unfold find_helper in H.
  apply bind_inv in H. destruct H as (lv & s1 & Hlv' & H).
  unfold gets in Hlv'. inversion Hlv'; subst lv s1.
  apply bind_inv in H. destruct H as (b & s2 & Hb & H).
  pose proof (readonly_cont_begin _ _ _ Hb) as Hs2. subst s2.
  apply (levels_stop fuel k (max_lv_ s) (max_lv_ s) 0 b s it); [exact Hlv|lia|exact H].
Qed.

(** ** The constructed object *)

Lemma skiplist_ctor_constructed rd max_lv prob :
  skiplist_ctor Value rd max_lv prob = Ret (constructed Value rd max_lv prob).
Proof.
  unfold skiplist_ctor, construct. rewrite init_internally_members. reflexivity.
Qed.

Lemma forallb_repeat (A : Type) (f : A -> bool) x n :
  f x = true -> forallb f (repeat x n) = true.
Proof.
  intros H. induction n as [|n IH]; simpl; [reflexivity|].
  rewrite H, IH. reflexivity.
Qed.

Lemma constructed_forward_head rd max_lv prob focus :
  focus < max_lv ->
  forward_at (At 1) focus (constructed Value rd max_lv prob)
  = Ret (At 0, constructed Value rd max_lv prob).
Proof.
  intros H.
  apply (forward_at_eq _ 1 (mkNode hash_min [] (repeat (At 0) max_lv)));
    [reflexivity|apply nth_error_repeat; exact H].
Qed.

Lemma constructed_forward_tail rd max_lv prob focus :
  focus < max_lv ->
  forward_at (At 0) focus (constructed Value rd max_lv prob)
  = Ret (End, constructed Value rd max_lv prob).
Proof.
  intros H.
  apply (forward_at_eq _ 0 (mkNode hash_max [] (repeat End max_lv)));
    [reflexivity|apply nth_error_repeat; exact H].
Qed.

Lemma constructed_deref_tail rd max_lv prob :
  deref (At 0) (constructed Value rd max_lv prob)
  = Ret (mkNode hash_max [] (repeat End max_lv),
         constructed Value rd max_lv prob).
Proof. reflexivity. Qed.

(** From the tail the descent goes nowhere. *)
Lemma constructed_levels_tail rd max_lv prob k fuel :
  forall n i,
    i + n = max_lv ->
    levels (S fuel) k max_lv n i (At 0) (constructed Value rd max_lv prob)
    = Ret (At 0, constructed Value rd max_lv prob).
Proof.
  induction n as [|n IH]; intros i Hin; [reflexivity|].
  cbn [levels].
  run_bind (constructed_forward_tail rd max_lv prob (max_lv - 1 - i)
              ltac:(lia)).
  assert (Hscan : scan (S fuel) k (max_lv - 1 - i) (At 0) End
                    (constructed Value rd max_lv prob)
                  = Ret (At 0, constructed Value rd max_lv prob))
    by reflexivity.
  run_bind Hscan. apply IH. lia.
Qed.

(** From the head, a key that is not above the maximum key takes the
    descent to the tail at the first level it scans. *)
Lemma constructed_levels_head_advance rd max_lv prob k fuel :
  (k <= hash_max)%Z ->
  forall n i,
    0 < n ->
    i + n = max_lv ->
    levels (S (S fuel)) k max_lv n i (At 1) (constructed Value rd max_lv prob)
    = Ret (At 0, constructed Value rd max_lv prob).
Proof.
  intros Hk n i Hn Hin. destruct n as [|n]; [lia|].
  cbn [levels].
  assert (Hfocus : max_lv - 1 - i < max_lv) by lia.
  run_bind (constructed_forward_head rd max_lv prob _ Hfocus).
  assert (Hscan : scan (S (S fuel)) k (max_lv - 1 - i) (At 1) (At 0)
                    (constructed Value rd max_lv prob)
                  = Ret (At 0, constructed Value rd max_lv prob)).
  { cbn [scan iterator_eqb].
    run_bind (constructed_deref_tail rd max_lv prob).
    cbn [key].
    replace (hash_max <? k)%Z with false by (symmetry; apply Z.ltb_ge; exact Hk).
    cbn [negb].
    run_bind (constructed_forward_tail rd max_lv prob _ Hfocus).
    reflexivity. }
  run_bind Hscan.
  apply constructed_levels_tail. lia.
Qed.

(** From the head, a key above the maximum key leaves the descent on the
    head. *)
Lemma constructed_levels_head_stay rd max_lv prob k fuel :
  (hash_max < k)%Z ->
  forall n i,
    i + n = max_lv ->
    levels (S fuel) k max_lv n i (At 1) (constructed Value rd max_lv prob)
    = Ret (At 1, constructed Value rd max_lv prob).
Proof.
  intros Hk. induction n as [|n IH]; intros i Hin; [reflexivity|].
  cbn [levels].
  assert (Hfocus : max_lv - 1 - i < max_lv) by lia.
  run_bind (constructed_forward_head rd max_lv prob _ Hfocus).
  assert (Hscan : scan (S fuel) k (max_lv - 1 - i) (At 1) (At 0)
                    (constructed Value rd max_lv prob)
                  = Ret (At 1, constructed Value rd max_lv prob)).
  { cbn [scan iterator_eqb].
    run_bind (constructed_deref_tail rd max_lv prob).
    cbn [key].
    replace (hash_max <? k)%Z with true by (symmetry; apply Z.ltb_lt; exact Hk).
    reflexivity. }
  run_bind Hscan. apply IH. lia.
Qed.

Lemma constructed_find_helper rd max_lv prob k fuel :
  find_helper (S (S fuel)) k (constructed Value rd max_lv prob)
  = Ret (if (max_lv =? 0) || (hash_max <? k)%Z then At 1 else At 0,
         constructed Value rd max_lv prob).
Proof.
  unfold find_helper.
  erewrite bind_ret_eq by reflexivity.
  erewrite bind_ret_eq by reflexivity.
  cbn [max_lv_ constructed set_cont members cont_ list_begin].
  destruct max_lv as [|m]; [reflexivity|].
  cbn [Nat.eqb orb].
  destruct (hash_max <? k)%Z eqn:E.
  - apply Z.ltb_lt in E.
    exact (constructed_levels_head_stay rd (S m) prob k (S fuel) E (S m) 0 eq_refl).
  - apply Z.ltb_ge in E.
    apply (constructed_levels_head_advance rd (S m) prob k fuel E (S m) 0);
      [lia|reflexivity].
Qed.

Lemma assert_each_repeat (check : iterator -> M Value bool) x n s :
  check x s = Ret (true, s) ->
  assert_each check (repeat x n) s = Ret (true, s).
Proof.
  intros H. induction n as [|n IH]; [reflexivity|].
  cbn [repeat assert_each]. run_bind H. exact IH.
Qed.

(** The descent of an ordered skiplist, with the node it ends on. *)
Lemma find_helper_head_or_tail (s : skiplist Value) k fuel :
  has_head (cont_ s) = true ->
  sized (max_lv_ s) (cont_ s) = true ->
  links_later (cont_ s) = true ->
  keys_increasing (cont_ s) = true ->
  ends_only_at_tail (cont_ s) = true ->
  length (cont_ s) <= fuel ->
  exists r q n,
    find_helper fuel k s = Ret (At r, s) /\
    nth_error (cont_ s) q = Some (r, n) /\
    lookup r (cont_ s) = Some n /\
    (q = 0 \/ S q = length (cont_ s)).
Proof.
  intros Hh Hs Hl Hk He Hfuel.
  destruct (cont_ s) as [|[h nh] c] eqn:Hc; [discriminate|].
  assert (Hb : cont_begin s = Ret (At h, s)).
  { unfold cont_begin, gets. rewrite Hc. reflexivity. }
  assert (Hi : index_of h (cont_ s) = Some 0).
  { rewrite Hc. simpl. rewrite Nat.eqb_refl. reflexivity. }
  rewrite <- Hc in *.
  destruct (levels_stay_or_reach_tail s k Hs Hl Hk He fuel Hfuel
              (max_lv_ s) 0 h 0 eq_refl Hi) as (r & Hr & Hcase).
  assert (Hq : exists q, index_of r (cont_ s) = Some q /\
                         (q = 0 \/ S q = length (cont_ s))).
  { destruct Hcase as [-> | (q & Hq & Hlast)].
    - exists 0. split; [exact Hi|left; reflexivity].
    - exists q. split; [exact Hq|right; exact Hlast]. }
  destruct Hq as (q & Hq & Hpos).
  destruct (index_of_nth _ _ _ Hq) as (n & Hn & Hnth).
  exists r, q, n. split; [|split; [exact Hnth|split; [exact Hn|exact Hpos]]].
  unfold find_helper. erewrite bind_ret_eq by reflexivity.
  run_bind Hb. exact Hr.
Qed.

(** ** Further properties of the code, continued *)

(** X4. On every constructed skiplist - whatever [max_lv] and [prob], and
    for the default constructor too - the structural conditions hold: the
    head is there, both sentinels carry [max_lv] forward entries, every
    forward link points strictly later or to the end, keys strictly
    increase, only the tail has end links, and the two cells have different
    addresses. *)
Theorem ctor_establishes_structure (rd : nat -> Z) (max_lv : nat) (prob : Q) :
  exists s,
    skiplist_ctor Value rd max_lv prob = Ret s /\
    (max_lv = 16 -> prob = (1 # 2)%Q -> skiplist_default Value rd = Ret s) /\
    has_head (cont_ s) = true /\
    sized (max_lv_ s) (cont_ s) = true /\
    links_later (cont_ s) = true /\
    keys_increasing (cont_ s) = true /\
    ends_only_at_tail (cont_ s) = true /\
    distinct (addresses (cont_ s)) = true.
Proof.
  exists (constructed Value rd max_lv prob).
  split; [apply skiplist_ctor_constructed|].
  split.
  { intros -> ->. unfold skiplist_default, construct.
    rewrite init_internally_members. reflexivity. }
  split; [reflexivity|].
  split.
  { unfold sized, constructed. cbn [cont_ set_cont max_lv_ members forallb snd forwards].
    rewrite !repeat_length, Nat.eqb_refl. reflexivity. }
  split.
  { unfold links_later, constructed.
    cbn [cont_ set_cont links_later_from forwards].
    rewrite !forallb_repeat by reflexivity. reflexivity. }
  split; [reflexivity|].
  split.
  { unfold constructed. cbn [cont_ set_cont ends_only_at_tail forwards].
    rewrite forallb_repeat by reflexivity. reflexivity. }
  reflexivity.
Qed.

(** X5. Lookup on a skiplist as constructed.  With at least one level,
    [find(v)] returns the end iterator for every value except one whose
    hash is the maximum key, for which it returns the tail sentinel.  With
    [max_lv = 0] the descent returns the head unseen, and [find(v)] returns
    the head sentinel when the hash of [v] is the minimum key and the end
    iterator otherwise. *)
Theorem find_on_constructed (rd : nat -> Z) (max_lv : nat) (prob : Q)
  (target : Value) (fuel : nat) :
  2 <= fuel ->
  exists s h t nh nt,
    skiplist_ctor Value rd max_lv prob = Ret s /\
    cont_ s = [(h, nh); (t, nt)] /\
    key nh = hash_min /\
    key nt = hash_max /\
    find hasher fuel target s
    = Ret (if max_lv =? 0
           then if (hasher target =? hash_min)%Z then At h else End
           else if (hasher target =? hash_max)%Z then At t else End,
           s).
Proof.
  intros Hfuel.
  destruct fuel as [|[|fuel]]; [lia|lia|].
  exists (constructed Value rd max_lv prob), 1, 0,
    (mkNode hash_min [] (repeat (At 0) max_lv)),
    (mkNode hash_max [] (repeat End max_lv)).
  split; [apply skiplist_ctor_constructed|].
  split; [reflexivity|]. split; [reflexivity|]. split; [reflexivity|].
  unfold find.
  run_bind (constructed_find_helper rd max_lv prob (hasher target) fuel).
  destruct max_lv as [|m]; cbn [Nat.eqb orb].
  - erewrite bind_ret_eq by reflexivity. cbn [key].
    rewrite (Z.eqb_sym hash_min (hasher target)).
    destruct (hasher target =? hash_min)%Z; reflexivity.
  - destruct (hash_max <? hasher target)%Z eqn:E.
    + erewrite bind_ret_eq by reflexivity. cbn [key].
      apply Z.ltb_lt in E.
      replace (hash_min =? hasher target)%Z with false
        by (symmetry; apply Z.eqb_neq; unfold hash_min, hash_max, size_t_modulus in *; lia).
      replace (hasher target =? hash_max)%Z with false
        by (symmetry; apply Z.eqb_neq; lia).
      reflexivity.
    + erewrite bind_ret_eq by reflexivity. cbn [key].
      rewrite (Z.eqb_sym hash_max (hasher target)).
      destruct (hasher target =? hash_max)%Z; reflexivity.
Qed.

(** X6. On every state with at least the two sentinels (and fewer than
    [2^64] cells), iteration from [begin()] to [end()] visits two nodes
    more than [size()] counts, [begin()] is never [end()], and [empty()] is
    true exactly when iteration visits two nodes. *)
Theorem iteration_visits_two_more_than_size (s : skiplist Value) (fuel : nat) :
  distinct (addresses (cont_ s)) = true ->
  length (cont_ s) < fuel ->
  2 <= length (cont_ s) ->
  (Z.of_nat (length (cont_ s)) < size_t_modulus)%Z ->
  exists ns n b,
    traverse fuel s = Ret (ns, s) /\
    size s = Ret (n, s) /\
    Z.of_nat (length ns) = (n + 2)%Z /\
    begin s = Ret (b, s) /\
    b <> End /\
    empty s = Ret (length ns =? 2, s).
Proof.
  intros Hd Hfuel H2 Hlt.
  exists (map snd (cont_ s)),
         (Z.of_nat (length (cont_ s)) - 2)%Z,
         (list_begin (cont_ s)).
  assert (Hsize : size s = Ret ((Z.of_nat (length (cont_ s)) - 2)%Z, s)).
  { unfold size, gets. rewrite Z.mod_small by lia. reflexivity. }
  split; [apply traverse_all; assumption|].
  split; [exact Hsize|].
  split; [rewrite length_map; lia|].
  split; [reflexivity|].
  split.
  { destruct (cont_ s) as [|[h nh] c]; [simpl in H2; lia|discriminate]. }
  unfold empty. run_bind Hsize. unfold ret. rewrite length_map.
  f_equal. f_equal.
  destruct (length (cont_ s) =? 2) eqn:E.
  - apply Nat.eqb_eq in E. rewrite E. reflexivity.
  - apply Nat.eqb_neq in E. apply Z.eqb_neq. lia.
Qed.

(** X7. On every ordered skiplist, [find(v)] returns the end iterator
    whenever the hash of [v] is the key of an interior node: no interior
    node can be looked up by its key. *)
Theorem find_misses_interior_keys (s : skiplist Value) (target : Value)
  (fuel p a : nat) (n : InternalNode Value) :
  has_head (cont_ s) = true ->
  sized (max_lv_ s) (cont_ s) = true ->
  links_later (cont_ s) = true ->
  keys_increasing (cont_ s) = true ->
  ends_only_at_tail (cont_ s) = true ->
  length (cont_ s) <= fuel ->
  nth_error (cont_ s) p = Some (a, n) ->
  0 < p ->
  S p < length (cont_ s) ->
  hasher target = key n ->
  find hasher fuel target s = Ret (End, s).
Proof.
  intros Hh Hs Hl Hk He Hfuel Hp Hp0 Hplast Hkey.
  destruct (find_helper_head_or_tail s (hasher target) fuel Hh Hs Hl Hk He Hfuel)
    as (r & q & nr & Hr & Hq & Hnr & Hpos).
  unfold find. run_bind Hr. run_bind (deref_At _ _ _ Hnr).
  replace (key nr =? hasher target)%Z with false; [reflexivity|].
  symmetry. apply Z.eqb_neq. rewrite Hkey.
  destruct Hpos as [-> | Hlast].
  - pose proof (keys_increasing_nth _ Hk 0 p r nr a n Hp0 Hq Hp). lia.
  - assert (Hpq : p < q) by lia.
    pose proof (keys_increasing_nth _ Hk p q a n r nr Hpq Hp Hq). lia.
Qed.

(** X8. The assertions that [init_internally] makes under
    [LIAM_UT_DEBUG_] pass on every construction, whatever [max_lv] and
    [prob]: the head has the minimum key, each of its forward entries
    refers to a node with the maximum key, and each forward entry of the
    node after it is the end iterator. *)
Theorem debug_asserts_pass (rd : nat -> Z) (max_lv : nat) (prob : Q) :
  exists s,
    skiplist_ctor Value rd max_lv prob = Ret s /\
    debug_asserts s = Ret (true, s).
Proof.
  exists (constructed Value rd max_lv prob).
  split; [apply skiplist_ctor_constructed|].
  unfold debug_asserts.
  erewrite bind_ret_eq by reflexivity.
  erewrite bind_ret_eq by reflexivity.
  cbn [key forwards]. rewrite Z.eqb_refl.
  erewrite bind_ret_eq.
  2:{ apply assert_each_repeat.
      run_bind (constructed_deref_tail rd max_lv prob).
      cbn [key]. rewrite Z.eqb_refl. reflexivity. }
  cbn iota.
  erewrite bind_ret_eq by reflexivity.
  erewrite bind_ret_eq by reflexivity.
  erewrite bind_ret_eq by reflexivity.
  cbn [forwards].
  apply assert_each_repeat. reflexivity.
Qed.

(** ** The modelled insertion, assembled *)





(** C4, as the code has it.  Whenever construction completes, [max_lv] and [prob] are stored as
    given, the level generator holds [max_lv - 1] trials computed in
    [size_t] and the given probability, and the sequence is the two
    sentinels with [max_lv] forward entries each.  And [max_lv = 0] is
    accepted: with any probability the distribution allows, from 0 to 1,
    construction completes, leaving two sentinels without forward entries
    and a level generator with [2^64 - 1] trials. *)
Theorem ctor_checks_nothing (rd : nat -> Z) (max_lv : nat) (prob : Q) :
  (forall s,
     skiplist_ctor Value rd max_lv prob = Ret s ->
     max_lv_ s = max_lv /\
     prob_ s = prob /\
     trials (rl_ s) = ((Z.of_nat max_lv - 1) mod size_t_modulus)%Z /\
     success (rl_ s) = prob /\
     two_sentinels max_lv s) /\
  ((0 <= prob)%Q -> (prob <= 1)%Q ->
   exists s0,
     skiplist_ctor Value rd 0 prob = Ret s0 /\
     max_lv_ s0 = 0 /\
     prob_ s0 = prob /\
     trials (rl_ s0) = (size_t_modulus - 1)%Z /\
     success (rl_ s0) = prob /\
     two_sentinels 0 s0).
Proof.
  split.
  - intros s H. rewrite skiplist_ctor_constructed in H. inversion H; subst s.
    do 4 (split; [reflexivity|]).
    split; [reflexivity|]. split; [reflexivity|].
    exists 1, 0. split; [discriminate|reflexivity].
  - intros _ _. exists (constructed Value rd 0 prob).
    split; [apply skiplist_ctor_constructed|].
    do 4 (split; [reflexivity|]).
    split; [reflexivity|]. split; [reflexivity|].
    exists 1, 0. split; [discriminate|reflexivity].
Qed.

End Proofs.

(** * Instances *)

(** The default constructor leaves [fresh_default]. *)
Lemma skiplist_default_zeros : skiplist_default Z zeros = Ret fresh_default.
Proof. reflexivity. Qed.

(** C1, at concrete inputs.  On the skiplist the default constructor
    leaves, the descent for the key 5 ends on the tail sentinel, whose key
    is the maximum key: the node returned has a key above the target.  On
    [one_node], the descent for the key 5 passes the node with the key 5
    and ends on the tail sentinel as well. *)
Theorem find_helper_overshoots :
  skiplist_default Z zeros = Ret fresh_default /\
  find_helper 2 5%Z fresh_default = Ret (At 0, fresh_default) /\
  lookup 0 (cont_ fresh_default) = Some (mkNode hash_max [] (repeat End 16)) /\
  (5 <? hash_max)%Z = true /\
  find_helper 3 5%Z one_node = Ret (At 0, one_node) /\
  lookup 0 (cont_ one_node) = Some (mkNode hash_max [] [End]).
Proof. repeat split; vm_compute; reflexivity. Qed.

(** C2 fails as stated: on the skiplist the default constructor leaves,
    which has no interior node, [find] of a value whose hash is the maximum
    key returns an iterator to the tail sentinel. *)
Lemma find_matches_tail_sentinel :
  interior (cont_ fresh_default) = [] /\
  find id_hash 2 hash_max fresh_default = Ret (At 0, fresh_default) /\
  last (cont_ fresh_default) (0, mkNode 0%Z [] [])
    = (0, mkNode hash_max [] (repeat End 16)).
Proof. repeat split; vm_compute; reflexivity. Qed.

Lemma find_returns_end_or_matching_key_witness :
  (has_head (cont_ fresh_default) = true /\
   sized (max_lv_ fresh_default) (cont_ fresh_default) = true /\
   links_later (cont_ fresh_default) = true /\
   length (cont_ fresh_default) <= 2 /\
   find id_hash 2 hash_max fresh_default = Ret (At 0, fresh_default)) /\
  exists it,
    find id_hash 2 hash_max fresh_default = Ret (it, fresh_default) /\
    (it = End \/
     exists a n, it = At a /\ lookup a (cont_ fresh_default) = Some n /\
                 key n = id_hash hash_max).
Proof.
  split.
  - repeat split; try reflexivity; simpl; lia.
  - apply (find_returns_end_or_matching_key Z id_hash fresh_default hash_max 2);
      [reflexivity | reflexivity | reflexivity | simpl; lia].
Defined.



(** C4 fails as stated: construction with [max_level = 0] completes; the
    sentinels have no forward entries and the level generator is given
    [2^64 - 1] trials. *)
Lemma ctor_accepts_zero_levels :
  skiplist_ctor Z zeros 0 (1 # 2)%Q
    = Ret {| max_lv_ := 0;
             prob_ := (1 # 2)%Q;
             rl_ := mk_random_level 18446744073709551615%Z (1 # 2)%Q zeros 0;
             cont_ := [ (1, mkNode hash_min [] []);
                        (0, mkNode hash_max [] []) ] |}.
Proof. reflexivity. Qed.

Lemma ctor_checks_nothing_witness :
  (skiplist_ctor Z zeros 0 (1 # 2)%Q = Ret (constructed Z zeros 0 (1 # 2)%Q) /\
   (0 <= 1 # 2)%Q /\ (1 # 2 <= 1)%Q) /\
  (max_lv_ (constructed Z zeros 0 (1 # 2)%Q) = 0 /\
   prob_ (constructed Z zeros 0 (1 # 2)%Q) = (1 # 2)%Q /\
   trials (rl_ (constructed Z zeros 0 (1 # 2)%Q))
     = ((Z.of_nat 0 - 1) mod size_t_modulus)%Z /\
   success (rl_ (constructed Z zeros 0 (1 # 2)%Q)) = (1 # 2)%Q /\
   two_sentinels 0 (constructed Z zeros 0 (1 # 2)%Q)) /\
  exists s0,
    skiplist_ctor Z zeros 0 (1 # 2)%Q = Ret s0 /\
    max_lv_ s0 = 0 /\
    prob_ s0 = (1 # 2)%Q /\
    trials (rl_ s0) = (size_t_modulus - 1)%Z /\
    success (rl_ s0) = (1 # 2)%Q /\
    two_sentinels 0 s0.
Proof.
  assert (H0 : (0 <= 1 # 2)%Q) by (unfold Qle; simpl; lia).
  assert (H1 : (1 # 2 <= 1)%Q) by (unfold Qle; simpl; lia).
  destruct (ctor_checks_nothing Z zeros 0 (1 # 2)%Q) as [Hall Hzero].
  split; [|split].
  - split; [reflexivity|]. split; assumption.
  - apply Hall. reflexivity.
  - apply Hzero; assumption.
Defined.

(** C5 fails as stated: on the skiplist the default constructor leaves,
    [size()] is 0 and there is no interior node, yet iteration from
    [begin()] to [end()] yields two nodes, the head and the tail sentinel. *)
Lemma traverse_fresh_yields_sentinels :
  size fresh_default = Ret (0%Z, fresh_default) /\
  interior (cont_ fresh_default) = [] /\
  begin fresh_default = Ret (At 1, fresh_default) /\
  lookup 1 (cont_ fresh_default) = Some (mkNode hash_min [] (repeat (At 0) 16)) /\
  traverse 3 fresh_default
    = Ret ([ mkNode hash_min [] (repeat (At 0) 16);
             mkNode hash_max [] (repeat End 16) ], fresh_default).
Proof. repeat split; vm_compute; reflexivity. Qed.

Lemma traverse_yields_whole_sequence_witness :
  (cont_ one_node
     = (1, mkNode hash_min [] [At 2])
         :: [(2, mkNode 5%Z [5%Z] [At 0])] ++ [(0, mkNode hash_max [] [End])] /\
   distinct (addresses (cont_ one_node)) = true /\
   length (cont_ one_node) < 4) /\
  (begin one_node = Ret (At 1, one_node) /\
   interior (cont_ one_node) = map snd [(2, mkNode 5%Z [5%Z] [At 0])] /\
   traverse 4 one_node
     = Ret (mkNode hash_min [] [At 2]
              :: interior (cont_ one_node) ++ [mkNode hash_max [] [End]],
            one_node)).
Proof.
  split.
  - repeat split; try reflexivity; simpl; lia.
  - apply (traverse_yields_whole_sequence Z one_node 4 1 0
             (mkNode hash_min [] [At 2]) (mkNode hash_max [] [End])
             [(2, mkNode 5%Z [5%Z] [At 0])]);
      [reflexivity | reflexivity | simpl; lia].
Defined.

Lemma find_terminates_witness :
  (links_later (cont_ one_node) = true /\
   length (cont_ one_node) <= 3 /\
   has_head (cont_ one_node) = true /\
   sized (max_lv_ one_node) (cont_ one_node) = true) /\
  (find_helper 3 7%Z one_node = Fault Undefined \/
   exists it, find_helper 3 7%Z one_node = Ret (it, one_node)) /\
  (find id_hash 3 5%Z one_node = Fault Undefined \/
   exists it, find id_hash 3 5%Z one_node = Ret (it, one_node)) /\
  (exists a n, find_helper 3 7%Z one_node = Ret (At a, one_node) /\
               lookup a (cont_ one_node) = Some n) /\
  (exists it, find id_hash 3 5%Z one_node = Ret (it, one_node)).
Proof.
  assert (Hle : length (cont_ one_node) <= 3) by (simpl; lia).
  destruct (find_terminates Z id_hash one_node 5%Z 7%Z 3 eq_refl Hle)
    as (H1 & H2 & H3).
  split; [|split; [|split]].
  - repeat split; try reflexivity; exact Hle.
  - exact H1.
  - exact H2.
  - exact (H3 eq_refl eq_refl).
Defined.

Lemma find_no_side_effects_witness :
  find id_hash 2 hash_max fresh_default = Ret (At 0, fresh_default) /\
  (fresh_default = fresh_default /\ cont_ fresh_default = cont_ fresh_default).
Proof.
  split.
  - vm_compute. reflexivity.
  - apply (find_no_side_effects Z id_hash fresh_default fresh_default
             hash_max 2 (At 0)).
    vm_compute. reflexivity.
Defined.

(** [init_internally] run once more, on [one_node]: two more sentinels in
    front, and the node with the key 5 still has it. *)
Lemma node_keys_immutable_witness :
  (run id_hash (OpInitInternally Z) one_node
     = Ret (tt, set_cont
                  ((4, mkNode hash_min [] [At 3])
                     :: (3, mkNode hash_max [] [End]) :: cont_ one_node)
                  one_node) /\
   lookup 2 (cont_ one_node) = Some (mkNode 5%Z [5%Z] [At 0])) /\
  exists n',
    lookup 2 (cont_ (set_cont
                 ((4, mkNode hash_min [] [At 3])
                    :: (3, mkNode hash_max [] [End]) :: cont_ one_node)
                 one_node)) = Some n' /\
    key n' = key (mkNode 5%Z [5%Z] [At 0]).
Proof.
  split.
  - split; reflexivity.
  - apply (node_keys_immutable Z id_hash (OpInitInternally Z) one_node _ 2
             (mkNode 5%Z [5%Z] [At 0])); reflexivity.
Defined.

Lemma find_helper_returns_a_sentinel_witness :
  (has_head (cont_ one_node) = true /\
   sized (max_lv_ one_node) (cont_ one_node) = true /\
   links_later (cont_ one_node) = true /\
   keys_increasing (cont_ one_node) = true /\
   ends_only_at_tail (cont_ one_node) = true /\
   length (cont_ one_node) <= 3) /\
  ((exists r, find_helper 3 5%Z one_node = Ret (At r, one_node) /\
              (is_head (cont_ one_node) r \/ is_tail (cont_ one_node) r)) /\
   (exists it, find id_hash 3 5%Z one_node = Ret (it, one_node) /\
               (it = End \/
                exists r, it = At r /\
                  (is_head (cont_ one_node) r \/ is_tail (cont_ one_node) r)))).
Proof.
  split.
  - repeat split; try reflexivity; simpl; lia.
  - apply (find_helper_returns_a_sentinel Z id_hash one_node 5%Z 5%Z 3);
      [reflexivity | reflexivity | reflexivity | reflexivity | reflexivity
      | simpl; lia].
Defined.

Lemma find_helper_stops_before_smaller_key_witness :
  (0 < max_lv_ one_node /\
   find_helper 3 7%Z one_node = Ret (At 1, one_node)) /\
  exists f,
    forward_at (At 1) 0 one_node = Ret (f, one_node) /\
    (f = End \/
     exists fn, deref f one_node = Ret (fn, one_node) /\ (key fn < 7)%Z).
Proof.
  split.
  - split; [simpl; lia | vm_compute; reflexivity].
  - apply (find_helper_stops_before_smaller_key Z one_node one_node 7%Z 3 (At 1));
      [simpl; lia | vm_compute; reflexivity].
Defined.

Lemma find_on_constructed_witness :
  2 <= 2 /\
  exists s h t nh nt,
    skiplist_ctor Z zeros 16 (1 # 2)%Q = Ret s /\
    cont_ s = [(h, nh); (t, nt)] /\
    key nh = hash_min /\
    key nt = hash_max /\
    find id_hash 2 7%Z s
    = Ret (if 16 =? 0
           then if (id_hash 7 =? hash_min)%Z then At h else End
           else if (id_hash 7 =? hash_max)%Z then At t else End,
           s).
Proof.
  split.
  - lia.
  - apply (find_on_constructed Z id_hash zeros 16 (1 # 2)%Q 7%Z 2). lia.
Defined.

Lemma iteration_visits_two_more_than_size_witness :
  (distinct (addresses (cont_ one_node)) = true /\
   length (cont_ one_node) < 4 /\
   2 <= length (cont_ one_node) /\
   (Z.of_nat (length (cont_ one_node)) < size_t_modulus)%Z) /\
  exists ns n b,
    traverse 4 one_node = Ret (ns, one_node) /\
    size one_node = Ret (n, one_node) /\
    Z.of_nat (length ns) = (n + 2)%Z /\
    begin one_node = Ret (b, one_node) /\
    b <> End /\
    empty one_node = Ret (length ns =? 2, one_node).
Proof.
  split.
  - repeat split; try reflexivity; simpl; lia.
  - apply (iteration_visits_two_more_than_size Z one_node 4);
      [reflexivity | simpl; lia | simpl; lia | reflexivity].
Defined.

Lemma find_misses_interior_keys_witness :
  (has_head (cont_ one_node) = true /\
   sized (max_lv_ one_node) (cont_ one_node) = true /\
   links_later (cont_ one_node) = true /\
   keys_increasing (cont_ one_node) = true /\
   ends_only_at_tail (cont_ one_node) = true /\
   length (cont_ one_node) <= 3 /\
   nth_error (cont_ one_node) 1 = Some (2, mkNode 5%Z [5%Z] [At 0]) /\
   0 < 1 /\
   2 < length (cont_ one_node) /\
   id_hash 5%Z = key (mkNode 5%Z [5%Z] [At 0])) /\
  find id_hash 3 5%Z one_node = Ret (End, one_node).
Proof.
  split.
  - repeat split; try reflexivity; simpl; lia.
  - apply (find_misses_interior_keys Z id_hash one_node 5%Z 3 1 2
             (mkNode 5%Z [5%Z] [At 0]));
      [reflexivity | reflexivity | reflexivity | reflexivity | reflexivity
      | simpl; lia | reflexivity | lia | simpl; lia | reflexivity].
Defined.
